(** * geom/navigation.go: least-cost paths on a field of hexes

    A shallow embedding of [reconstruct], [heuristic] and [Navigate], and the
    properties of the search that the specification states.

    - float64 is Rocq's primitive binary64 ([PrimFloat]), so every rounding,
      infinity and NaN of the Go arithmetic is the one computed here;
    - [*Hex] is a reference: an abstract type with decidable equality, read
      through the cell model ([Cells]).  The maps of [Navigate] that are keyed
      by [*Hex] are keyed by the reference, the map keyed by [Key] by the
      coordinate pair, as in the source;
    - ranging over a Go map visits the keys in an unspecified order: the
      order is a parameter of the search ([range]), and the theorems hold for
      every order;
    - loops that Go leaves unbounded take fuel; [None] is "still running". *)

From Stdlib Require Import ZArith Floats.
From stdpp Require Import base option list gmap sets.

Open Scope Z_scope.
Set Warnings "-clear-no-such-hyp".

(** ** float64 *)

(** math.MaxFloat64 *)
Definition MaxFloat64 : float := 0x1.fffffffffffffp+1023%float.

(** math.Inf(0) *)
Definition Inf : float := infinity.

(** math.Pow(x, 2), taken as the correctly rounded square of x; it has
    Pow's special cases (Pow(±0, 2) = +0, Pow(±Inf, 2) = +Inf,
    Pow(NaN, 2) = NaN). *)
Definition Pow2 (x : float) : float := (x * x)%float.

(** Reading a Go map of float64 at a key: the zero value when absent. *)
Definition at0 `{Countable K} (m : gmap K float) (k : K) : float :=
  default 0%float (m !! k).

(** The place of a float among the floats, NaN apart: its class (-Inf,
    negative, zero, positive, +Inf), then exponent and mantissa.  Float
    comparison is the lexicographic order of places ([SFltb_before]). *)
Definition place (x : spec_float) : Z * Z * Z :=
  match x with
  | S754_zero _ | S754_nan => (0, 0, 0)
  | S754_infinity s => (if s then -2 else 2, 0, 0)
  | S754_finite true m e => (-1, - e, Z.neg m)
  | S754_finite false m e => (1, e, Z.pos m)
  end.

Definition before (a b : Z * Z * Z) : Prop :=
  a.1.1 < b.1.1
  ∨ a.1.1 = b.1.1 ∧ (a.1.2 < b.1.2 ∨ a.1.2 = b.1.2 ∧ a.2 < b.2).

(** A float that is not negative: NaN, or a zero, a finite float or an
    infinity with the sign bit clear. *)
Definition signless (x : spec_float) : Prop :=
  match x with
  | S754_zero s | S754_infinity s | S754_finite s _ _ => s = false
  | S754_nan => True
  end.

(** ** Obstacles *)

Module ContextualObstacle.
Record t := mk { M : Z; N : Z; Cost : float }.
End ContextualObstacle.
Abbreviation ContextualObstacle := ContextualObstacle.t.

(** ** The cell model

    [Hex] and [Key] are declared elsewhere in package geom; [Navigate] uses
    the fields [M], [N], the methods [X], [Y], [Neighbors], and the struct
    literal [&Hex{M: m, N: n}] ([lit]).  They are parameters here, read at
    a reference.  [Navigate] writes to no cell, and calls [Neighbors] on a
    reference at most once (a reference whose coordinates are settled does
    not enter the frontier again), so a method that allocates its result is
    a function of the reference as well. *)

Abbreviation Key := (Z * Z)%type.

Record Cells (Hex : Type) := {
  M : Hex → Z;
  N : Hex → Z;
  X : Hex → float;
  Y : Hex → float;
  Neighbors : Hex → list Hex;
  lit : Z → Z → Hex
}.
Arguments M {Hex}.
Arguments N {Hex}.
Arguments X {Hex}.
Arguments Y {Hex}.
Arguments Neighbors {Hex}.
Arguments lit {Hex}.

(** The error of [Navigate]:
    "no path available from %d,%d to %d,%d". *)
Inductive error := NoPathAvailable (sm sn gm gn : Z).

(** ** reconstruct *)

Section Reconstruct.
Context {Hex : Type} `{Countable Hex}.

(** The first loop: follow [prevs] from [n] while the lookup succeeds,
    appending to [result]. *)
Fixpoint follow (fuel : nat) (prevs : gmap Hex Hex) (result : list Hex)
    (n : option Hex) : option (list Hex) :=
  match n with
  | None => Some result
  | Some n =>
      match fuel with
      | O => None
      | S fuel => follow fuel prevs (result ++ [n]) (prevs !! n)
      end
  end.

(** The second loop, for i := k-1 down to 0: swap result[i] and
    result[len-1-i].  An index out of range cannot occur for
    k = len/2 (Go would panic). *)
Fixpoint swaps (k : nat) (result : list Hex) : list Hex :=
  match k with
  | O => result
  | S i =>
      let opp := (length result - 1 - i)%nat in
      match result !! i, result !! opp with
      | Some a, Some b => swaps i (<[opp := a]> (<[i := b]> result))
      | _, _ => result
      end
  end.

Definition reconstruct (fuel : nat) (prevs : gmap Hex Hex) (current : Hex)
    : option (list Hex) :=
  result ← follow fuel prevs [current] (prevs !! current);
  Some (swaps (length result / 2) result).
End Reconstruct.

(** ** heuristic and Navigate *)

Section Navigate.
Context {Hex : Type} `{Countable Hex}.
Variable W : Cells Hex.

Definition key (h : Hex) : Key := (M W h, N W h).

Definition heuristic (a b : Hex) : float :=
  (Pow2 (X W a - X W b) + Pow2 (Y W a - Y W b))%float.

Definition oneStep : float := heuristic (lit W 0 0) (lit W 0 1).

(** The state of the search: the five maps of [Navigate]. *)
Record search := Search {
  closed : gset Key;
  open : gset Hex;
  cameFrom : gmap Hex Hex;
  costs : gmap Hex float;
  guesses : gmap Hex float
}.

(** The scan for the lowest guess, over the keys of [open] in the order
    [ks]: [current] starts nil and [low] at MaxFloat64. *)
Definition scanStep (g : gmap Hex float) (acc : option Hex * float)
    (k : Hex) : option Hex * float :=
  if (at0 g k <? acc.2)%float then (Some k, at0 g k) else acc.

Definition scan (g : gmap Hex float) (ks : list Hex) : option Hex * float :=
  foldl (scanStep g) (None, MaxFloat64) ks.

(** o.M == n.M && o.N == n.N *)
Definition occupies (o : ContextualObstacle) (n : Hex) : bool :=
  (ContextualObstacle.M o =? M W n) && (ContextualObstacle.N o =? N W n).

(** The loop over [obstacles]: the first entry at [n]'s coordinates
    rewrites [tentative], and the loop breaks. *)
Fixpoint obstructed (tentative : float) (n : Hex)
    (obstacles : list ContextualObstacle) : float :=
  match obstacles with
  | [] => tentative
  | o :: rest =>
      if occupies o n
      then
        if (ContextualObstacle.Cost o =? Inf)%float then MaxFloat64
        else (tentative * ContextualObstacle.Cost o)%float
      else obstructed tentative n rest
  end.

Section Loop.
Variable goal : Hex.
Variable obstacles : list ContextualObstacle.

Definition tentativeCost (st : search) (current n : Hex) : float :=
  obstructed (at0 (costs st) current + oneStep)%float n obstacles.

(** The three assignments that end the body of the neighbor loop. *)
Definition record (current n : Hex) (tentative : float) (st : search)
    : search :=
  {| closed := closed st;
     open := open st;
     cameFrom := <[n := current]> (cameFrom st);
     costs := <[n := tentative]> (costs st);
     guesses := <[n := (tentative + heuristic n goal)%float]> (guesses st) |}.

Definition addOpen (n : Hex) (st : search) : search :=
  {| closed := closed st;
     open := {[n]} ∪ open st;
     cameFrom := cameFrom st;
     costs := costs st;
     guesses := guesses st |}.

(** The body of the loop over [current.Neighbors()]. *)
Definition visit (current : Hex) (st : search) (n : Hex) : search :=
  if decide (key n ∈ closed st) then st
  else
    let tentative := tentativeCost st current n in
    if decide (n ∈ open st) then
      if (at0 (costs st) n <=? tentative)%float then st
      else record current n tentative st
    else record current n tentative (addOpen n st).

(** delete(open, current); closed[Key{...}] = struct{}{} *)
Definition settle (current : Hex) (st : search) : search :=
  {| closed := {[key current]} ∪ closed st;
     open := open st ∖ {[current]};
     cameFrom := cameFrom st;
     costs := costs st;
     guesses := guesses st |}.

Definition expand (current : Hex) (st : search) : search :=
  foldl (visit current) (settle current st) (Neighbors W current).

(** One turn of the outer loop, entered with [open] not empty.  [goal] is
    not nil ([heuristic] reads through it), so a nil [current] is not the
    goal and breaks out of the loop. *)
Inductive turn :=
| Return (current : Hex)
| Break
| Next (st : search).

Definition iteration (ks : list Hex) (st : search) : turn :=
  match (scan (guesses st) ks).1 with
  | Some current =>
      if decide (current = goal) then Return current
      else Next (expand current st)
  | None => Break
  end.
End Loop.

(** [range i s]: the order in which the [i]-th range statement visits the
    keys of the map [s]. *)
Variable range : nat → gset Hex → list Hex.

Section Run.
Variable start goal : Hex.
Variable obstacles : list ContextualObstacle.

Definition noPath : error :=
  NoPathAvailable (M W start) (N W start) (M W goal) (N W goal).

Definition init : search :=
  {| closed := ∅;
     open := {[start]};
     cameFrom := ∅;
     costs := {[start := 0%float]};
     guesses := {[start := heuristic start goal]} |}.

(** The outer loop from its [i]-th turn; [rfuel] bounds [reconstruct]. *)
Fixpoint loop (rfuel fuel : nat) (i : nat) (st : search)
    : option (list Hex + error) :=
  match fuel with
  | O => None
  | S fuel =>
      if decide (open st = ∅) then Some (inr noPath)
      else
        match iteration goal obstacles (range i (open st)) st with
        | Return current =>
            inl <$> reconstruct rfuel (cameFrom st) current
        | Break => Some (inr noPath)
        | Next st' => loop rfuel fuel (S i) st'
        end
  end.

Definition Navigate (fuel : nat) : option (list Hex + error) :=
  loop fuel fuel 0 init.
End Run.
End Navigate.

(** ** What the theorems are stated with *)

Section Statements.
Context {Hex : Type} `{Countable Hex}.
Variable W : Cells Hex.

(** The obstacle list without its entries at the coordinates of [c]. *)
Definition elsewhere (c : Hex) (obstacles : list ContextualObstacle)
    : list ContextualObstacle :=
  filter (λ o, occupies W o c = false) obstacles.

(** Coordinate identity in the cell model: one reference per coordinate
    pair. *)
Definition canonical : Prop := ∀ a b : Hex, key W a = key W b → a = b.

(** A set of cells that holds the neighbors of its cells. *)
Definition closedUnder (region : gset Hex) : Prop :=
  ∀ c n, c ∈ region → n ∈ Neighbors W c → n ∈ region.

(** [trail start st n l]: following [cameFrom] from [n] visits the cells
    of [l] in turn, each settled and a cell the one before it neighbors,
    and stops at [start], which has no predecessor. *)
Inductive trail (start : Hex) (st : search) : Hex → list Hex → Prop :=
| trail_start :
    cameFrom st !! start = None → trail start st start []
| trail_step n c l :
    cameFrom st !! n = Some c → key W c ∈ closed st →
    n ∈ Neighbors W c → trail start st c l →
    trail start st n (c :: l).

(** What holds of the search state at every turn, on a region that holds
    the start and the neighbors of its cells. *)
Record sound (region : gset Hex) (start : Hex) (st : search) : Prop := {
  sound_open : open st ⊆ region;
  sound_closed : closed st ⊆ set_map (key W) region;
  sound_fresh : ∀ n, n ∈ open st → key W n ∉ closed st;
  sound_start : open st = {[start]} ∨ key W start ∈ closed st;
  sound_open_trail : ∀ n, n ∈ open st →
    ∃ l, trail start st n l ∧ (length l ≤ size (closed st))%nat;
  sound_closed_trail : ∀ n, key W n ∈ closed st →
    ∃ l, trail start st n l ∧ (length l < size (closed st))%nat
}.

(** The state in which the loop of [Navigate] starts its [k]-th turn
    (counting from 0), when it gets that far: [None] once the loop has
    returned or broken. *)
Fixpoint turns (range : nat → gset Hex → list Hex) (start goal : Hex)
    (obstacles : list ContextualObstacle) (k : nat) : option search :=
  match k with
  | O => Some (init W start goal)
  | S k =>
      st ← turns range start goal obstacles k;
      if decide (open st = ∅) then None
      else
        match iteration W goal obstacles (range k (open st)) st with
        | Next st' => Some st'
        | _ => None
        end
  end.

(** Each cell of the sequence is a neighbor of the one before it. *)
Fixpoint linked (p : list Hex) : Prop :=
  match p with
  | a :: (b :: _) as q => b ∈ Neighbors W a ∧ linked q
  | _ => True
  end.

(** A sequence of cells from [start] to [goal] inclusive, by steps between
    neighbors. *)
Definition route (start goal : Hex) (p : list Hex) : Prop :=
  head p = Some start ∧ last p = Some goal ∧ linked p.

(** The cost of [k] steps with no obstacle: oneStep added [k] times to 0,
    in float64. *)
Definition stepsCost (k : nat) : float :=
  Nat.iter k (λ c, (c + oneStep W)%float) 0%float.

(** Every priority the search can compute on the region, with no obstacle,
    is below MaxFloat64. *)
Definition affordable (region : gset Hex) (start goal : Hex) : Prop :=
  (heuristic W start goal <? MaxFloat64)%float = true
  ∧ ∀ n k, n ∈ region → (k ≤ size region)%nat →
      (stepsCost k + heuristic W n goal <? MaxFloat64)%float = true.

(** What a settled cell neighbors is settled or in the frontier. *)
Definition bordered (st : @search Hex _ _) : Prop :=
  ∀ c n, key W c ∈ closed st → n ∈ Neighbors W c →
    key W n ∈ closed st ∨ n ∈ open st.

(** The same during the expansion of [c], the neighbors of [c] not yet
    visited apart. *)
Definition borderedBut (c : Hex) (visited : list Hex) (st : @search Hex _ _)
    : Prop :=
  ∀ c' n, key W c' ∈ closed st → n ∈ Neighbors W c' →
    c' ≠ c ∨ n ∈ visited →
    key W n ∈ closed st ∨ n ∈ open st.

(** What holds besides of the state of a search with no obstacle: the
    cells of the frontier can be selected, the recorded costs are costs of
    whole steps, and the goal is not settled. *)
Record priced (region : gset Hex) (goal : Hex) (st : @search Hex _ _)
    : Prop := {
  priced_guess : ∀ n, n ∈ open st →
    (at0 (guesses st) n <? MaxFloat64)%float = true;
  priced_open : ∀ n, n ∈ open st →
    ∃ k, (k ≤ size (closed st))%nat ∧ costs st !! n = Some (stepsCost k);
  priced_closed : ∀ n, key W n ∈ closed st →
    ∃ k, (k < size (closed st))%nat ∧ costs st !! n = Some (stepsCost k);
  priced_goal : key W goal ∉ closed st
}.

(** [follows prevs n l]: the predecessors of [n] in [prevs], one after the
    other, are the cells of [l], and the last of them has none. *)
Inductive follows (prevs : gmap Hex Hex) : Hex → list Hex → Prop :=
| follows_end n : prevs !! n = None → follows prevs n []
| follows_step n c l :
    prevs !! n = Some c → follows prevs c l → follows prevs n (c :: l).

(** The first entry of the obstacle list at the coordinates of [n] has an
    infinite multiplier. *)
Definition walled (obstacles : list ContextualObstacle) (n : Hex) : bool :=
  match find (λ o, occupies W o n) obstacles with
  | Some o => (ContextualObstacle.Cost o =? Inf)%float
  | None => false
  end.

(** [track start prevs expanded n l]: the predecessors of [n] are the cells
    of [l] one after the other, each a reference that has been expanded
    and that the cell before it neighbors, down to [start], which has
    no predecessor. *)
Inductive track (start : Hex) (prevs : gmap Hex Hex) (expanded : gset Hex)
    : Hex → list Hex → Prop :=
| track_start :
    prevs !! start = None → track start prevs expanded start []
| track_step n c l :
    prevs !! n = Some c → c ∈ expanded → n ∈ Neighbors W c →
    track start prevs expanded c l →
    track start prevs expanded n (c :: l).

(** What holds of the state of every search, whatever the cell model, with
    [expanded] the references the loop has selected and expanded so far. *)
Record traced (obstacles : list ContextualObstacle) (start : Hex)
    (expanded : gset Hex) (st : @search Hex _ _) : Prop := {
  traced_closed : ∀ c, c ∈ expanded → key W c ∈ closed st;
  traced_open : ∀ n, n ∈ open st → n ∉ expanded;
  traced_start :
    open st = {[start]} ∧ expanded = ∅ ∨ key W start ∈ closed st;
  traced_open_track : ∀ n, n ∈ open st →
    ∃ l, track start (cameFrom st) expanded n l ∧ NoDup l;
  traced_expanded_track : ∀ n, n ∈ expanded →
    ∃ l, track start (cameFrom st) expanded n l ∧ NoDup (n :: l);
  traced_walled : ∀ n, n ∈ open st → n ≠ start →
    walled obstacles n = true →
    (at0 (guesses st) n <? MaxFloat64)%float = false;
  traced_passable : ∀ c, c ∈ expanded →
    c = start ∨ walled obstacles c = false;
  traced_recorded : ∀ n, is_Some (cameFrom st !! n) →
    n ∈ open st ∨ n ∈ expanded
}.

(** The coordinate pair of an obstacle entry. *)
Definition coordinates (o : ContextualObstacle) : Key :=
  (ContextualObstacle.M o, ContextualObstacle.N o).

(** The references that the search has expanded and those of the frontier
    are cells of [region], and the settled set holds the coordinates of
    the expanded references. *)
Definition confined (region expanded : gset Hex) (st : @search Hex _ _)
    : Prop :=
  expanded ⊆ region ∧ open st ⊆ region
  ∧ closed st = set_map (key W) expanded.

End Statements.

(** ** Fields to run the search on *)

(** int to float64, for the small coordinates of the fields below. *)
Definition ofZ (z : Z) : float :=
  match z with
  | Z0 => 0%float
  | Zpos _ => PrimFloat.of_uint63 (Uint63.of_Z z)
  | Zneg p => (- PrimFloat.of_uint63 (Uint63.of_Z (Zpos p)))%float
  end.

(** The six neighbors of a hex in axial coordinates. *)
Definition around (c : Key) : list Key :=
  [(c.1 + 1, c.2); (c.1 - 1, c.2); (c.1, c.2 + 1);
   (c.1, c.2 - 1); (c.1 + 1, c.2 - 1); (c.1 - 1, c.2 + 1)].

(** The centre of a regular hex of width 1: x = m + n/2, y = n·√3/2. *)
Definition centreX (c : Key) : float := (ofZ c.1 + ofZ c.2 * 0.5)%float.

Definition centreY (c : Key) : float :=
  (ofZ c.2 * 0x1.bb67ae8584caap-1)%float.

(** A field whose cells are the coordinate pairs of [cells]: one reference
    per coordinate pair. *)
Definition hexField (cells : list Key) : Cells Key :=
  {| M := fst;
     N := snd;
     X := centreX;
     Y := centreY;
     Neighbors := λ c, filter (λ n, n ∈ cells) (around c);
     lit := λ m n, (m, n) |}.

(** The same field with references kept apart from coordinates: the cells
    of the field are tagged [false], and a struct literal is a cell of its
    own, tagged [true], with the coordinates it was given. *)
Definition litField (cells : list Key) : Cells (bool * Key) :=
  {| M := λ h, h.2.1;
     N := λ h, h.2.2;
     X := λ h, centreX h.2;
     Y := λ h, centreY h.2;
     Neighbors := λ h, pair false <$> filter (λ n, n ∈ cells) (around h.2);
     lit := λ m n, (true, (m, n)) |}.

Definition rhombus (r : Z) : list Key :=
  a ← seqZ 0 r; b ← seqZ 0 r; [(a, b)].

(** Ranging over a map in the order of its enumeration. *)
Definition inOrder {Hex : Type} `{Countable Hex} : nat → gset Hex → list Hex :=
  λ _ s, elements s.

(** [affordable], as a check that can be run. *)
Definition affordableb {Hex : Type} `{Countable Hex} (W : Cells Hex)
    (region : gset Hex) (start goal : Hex) : bool :=
  (heuristic W start goal <? MaxFloat64)%float
  && forallb (λ n,
       forallb (λ k, (stepsCost W k + heuristic W n goal <? MaxFloat64)%float)
         (seq 0 (S (size region))))
       (elements region).

(** A row of three hexes. *)
Definition row : Cells Key := hexField [(0, 0); (1, 0); (2, 0)].

(** Four hexes. *)
Definition patch : Cells Key := hexField (rhombus 2).

Definition patchRegion : gset Key := list_to_set (rhombus 2).

(** Nine hexes: a corridor from (0,0) to (3,2) that starts in two
    branches, (0,0)-(0,1)-(0,2) and (0,0)-(1,0)-(1,1)-(0,2), and goes on
    (0,2)-(0,3)-(1,3)-(2,2)-(3,2). *)
Definition corridor : Cells Key :=
  hexField [(0, 0); (0, 1); (0, 2); (0, 3); (1, 0); (1, 1); (1, 3);
            (2, 2); (3, 2)].

(** Two hexes side by side and a third apart from them. *)
Definition islands : Cells Key := hexField [(0, 0); (1, 0); (5, 5)].

(** A field with two references per coordinate pair: each cell is there
    twice, tagged [false] and [true], and Neighbors returns both references
    of each neighboring coordinate pair.  (A struct literal is only read
    for its projection.) *)
Definition twinField (cells : list Key) : Cells (bool * Key) :=
  {| M := λ h, h.2.1;
     N := λ h, h.2.2;
     X := λ h, centreX h.2;
     Y := λ h, centreY h.2;
     Neighbors := λ h,
       n ← filter (λ n, n ∈ cells) (around h.2); [(false, n); (true, n)];
     lit := λ m n, (true, (m, n)) |}.

(** The row of three hexes, each twice. *)
Definition twinRow : Cells (bool * Key) :=
  twinField [(0, 0); (1, 0); (2, 0)].

(** A hex twice as slow to cross, one that cannot be crossed, and one that
    changes nothing. *)
Definition slow (m n : Z) : ContextualObstacle :=
  ContextualObstacle.mk m n 2.

Definition wall (m n : Z) : ContextualObstacle :=
  ContextualObstacle.mk m n Inf.

Definition plain (m n : Z) : ContextualObstacle :=
  ContextualObstacle.mk m n 1.

(** The cells of [patch], each field cell and each struct literal a
    reference of its own. *)
Definition patchLit : Cells (bool * Key) := litField (rhombus 2).

(** The state of the search on [row] from (0,0) to (2,0) once the start
    has been expanded. *)
Definition rowExpanded (obstacles : list ContextualObstacle) :=
  expand row (2, 0) obstacles (0, 0) (init row (0, 0) (2, 0)).

(** The state of the search on [patch] from (0,0) to (1,1) once the start
    has been expanded. *)
Definition patchExpanded (obstacles : list ContextualObstacle) :=
  expand patch (1, 1) obstacles (0, 0) (init patch (0, 0) (1, 1)).

(** * Facts about float64 *)

Module Float64.

Lemma SFcompare_swap (x y : spec_float) :
  SFcompare y x = CompOpp <$> SFcompare x y.
Proof.
  destruct x as [[]|[]| |[] mx ex], y as [[]|[]| |[] my ey];
    simpl; try reflexivity.
  all: rewrite (Z.compare_antisym ex ey); destruct (ex ?= ey);
    simpl; try reflexivity.
  all: rewrite <- (Pos.compare_cont_antisym _ _ Eq); simpl; try reflexivity.
  all: destruct (Pos.compare_cont Eq mx my); reflexivity.
Qed.

Lemma SFcompare_refl (x : spec_float) :
  x ≠ S754_nan → SFcompare x x = Some Eq.
Proof.
  destruct x as [[]|[]| |[] mx ex]; simpl; try done.
  all: rewrite Z.compare_refl; fold (Pos.compare mx mx);
    by rewrite Pos.compare_refl.
Qed.

Lemma SFcompare_None (x y : spec_float) :
  SFcompare x y = None → x = S754_nan ∨ y = S754_nan.
Proof.
  destruct x as [[]|[]| |[] mx ex], y as [[]|[]| |[] my ey];
    simpl; try done; auto.
Qed.

Lemma is_nan_spec (x : float) : is_nan x = false ↔ Prim2SF x ≠ S754_nan.
Proof.
  unfold is_nan. rewrite FloatAxioms.eqb_spec. unfold SFeqb. split.
  - intros E Nx. rewrite Nx in E. done.
  - intros Nx. by rewrite SFcompare_refl.
Qed.

(** a <= b excludes b < a. *)
Lemma leb_ltb_false (a b : float) :
  (a <=? b)%float = true → (b <? a)%float = false.
Proof.
  rewrite FloatAxioms.leb_spec, FloatAxioms.ltb_spec. unfold SFleb, SFltb.
  rewrite (SFcompare_swap (Prim2SF a) (Prim2SF b)).
  by destruct (SFcompare (Prim2SF a) (Prim2SF b)) as [[]|].
Qed.

(** Away from NaN, the failure of a <= b is b < a. *)
Lemma not_leb_ltb (a b : float) :
  is_nan a = false → is_nan b = false →
  (a <=? b)%float = false → (b <? a)%float = true.
Proof.
  rewrite !is_nan_spec, FloatAxioms.leb_spec, FloatAxioms.ltb_spec.
  unfold SFleb, SFltb. intros Na Nb.
  rewrite (SFcompare_swap (Prim2SF a) (Prim2SF b)).
  destruct (SFcompare (Prim2SF a) (Prim2SF b)) as [[]|] eqn:E; try done.
  by destruct (SFcompare_None _ _ E).
Qed.

Lemma is_finite_spec (x : float) :
  is_finite x = true →
  (∃ s, Prim2SF x = S754_zero s) ∨ (∃ s m e, Prim2SF x = S754_finite s m e).
Proof.
  unfold is_finite, is_nan, is_infinity.
  rewrite !FloatAxioms.eqb_spec, abs_spec.
  destruct (Prim2SF x) as [s|s| |s m e]; eauto; simpl.
  - destruct s; vm_compute; done.
  - done.
Qed.

(** A finite float minus itself is +0, exactly. *)
Lemma sub_diag (x : float) : is_finite x = true → (x - x)%float = 0%float.
Proof.
  intros F. apply Prim2SF_inj. rewrite sub_spec.
  destruct (is_finite_spec x F) as [[s ->]|(s & m & e & ->)].
  - by destruct s.
  - unfold SF64sub, SFsub. rewrite Z.sub_diag. reflexivity.
Qed.

Lemma SFltb_before (x y : spec_float) :
  SFltb x y = true ↔ x ≠ S754_nan ∧ y ≠ S754_nan ∧ before (place x) (place y).
Proof.
  unfold SFltb, before.
  destruct x as [[]|[]| |[] mx ex], y as [[]|[]| |[] my ey]; simpl;
    try (split; [done || (intros _; split_and!; try done; lia)
                | intros (? & ? & ?); done || lia]).
  all: destruct (Z.compare_spec ex ey); fold (Pos.compare mx my);
    try destruct (Pos.compare_spec mx my); simpl; subst;
    (split; [done || (intros _; split_and!; try done; lia)
            | intros (? & ? & ?); done || lia]).
Qed.

Lemma ltb_trans (a b c : float) :
  (a <? b)%float = true → (b <? c)%float = true → (a <? c)%float = true.
Proof.
  rewrite !FloatAxioms.ltb_spec, !SFltb_before. unfold before.
  intros (? & ? & ?) (? & ? & ?). split_and!; try done. lia.
Qed.

End Float64.

(** * Rounding at MaxFloat64, and signs *)

Module Rounding.

Lemma digits2_bounds (p : positive) :
  2 ^ (Z.pos (digits2_pos p) - 1) ≤ Z.pos p < 2 ^ Z.pos (digits2_pos p).
Proof.
  induction p as [p IH|p IH|]; simpl; [| |lia].
  all: rewrite Pos2Z.inj_succ.
  all: replace (Z.succ (Z.pos (digits2_pos p)) - 1)
         with (Z.succ (Z.pos (digits2_pos p) - 1)) by lia.
  all: rewrite !Z.pow_succ_r by lia; lia.
Qed.

Lemma shr_1_m (mrs : shr_record) :
  0 ≤ shr_m mrs → shr_m (shr_1 mrs) = shr_m mrs / 2.
Proof.
  destruct mrs as [m r s]. cbn [shr_m]. intros Hm.
  destruct m as [|[p|p|]|p]; cbn [shr_1 shr_m]; try reflexivity; try lia.
  - apply Z.div_unique with 1; lia.
  - apply Z.div_unique with 0; lia.
Qed.

Lemma shr_m_iter (p : positive) (mrs : shr_record) :
  0 ≤ shr_m mrs →
  shr_m (SpecFloat.iter_pos shr_1 p mrs) = shr_m mrs / 2 ^ Z.pos p.
Proof.
  revert mrs.
  induction p as [p IH|p IH|]; intros mrs Hm; cbn [SpecFloat.iter_pos].
  - assert (0 ≤ shr_m (shr_1 mrs)) as H1
      by (rewrite shr_1_m by done; apply Z.div_pos; lia).
    assert (0 ≤ shr_m (SpecFloat.iter_pos shr_1 p (shr_1 mrs))) as H2
      by (rewrite IH by done; apply Z.div_pos; lia).
    rewrite IH, IH, shr_1_m by done.
    rewrite !Z.div_div by lia. f_equal.
    replace (Z.pos p~1) with (1 + Z.pos p + Z.pos p) by lia.
    rewrite !Z.pow_add_r, Z.pow_1_r by lia. ring.
  - assert (0 ≤ shr_m (SpecFloat.iter_pos shr_1 p mrs)) as H2
      by (rewrite IH by done; apply Z.div_pos; lia).
    rewrite IH, IH by done.
    rewrite !Z.div_div by lia. f_equal.
    replace (Z.pos p~0) with (Z.pos p + Z.pos p) by lia.
    rewrite !Z.pow_add_r by lia. ring.
  - by apply shr_1_m.
Qed.

Lemma shr_record_of_loc_m (m : Z) (l : location) :
  shr_m (shr_record_of_loc m l) = m.
Proof. by destruct l as [|[]]. Qed.

(** What [shr_fexp] leaves of a mantissa: the mantissa itself when it has
    at most the digits the exponent allows, and otherwise its quotient by
    the power of two that the exponent grows by. *)
Lemma shr_fexp_m (m e : Z) (l : location) :
  0 ≤ m →
  let n := fexp prec emax (Zdigits2 m + e) - e in
  (n ≤ 0 →
     shr_m (shr_fexp prec emax m e l).1 = m
     ∧ (shr_fexp prec emax m e l).2 = e)
  ∧ (0 < n →
     shr_m (shr_fexp prec emax m e l).1 = m / 2 ^ n
     ∧ (shr_fexp prec emax m e l).2 = e + n).
Proof.
  intros Hm n. unfold shr_fexp, shr. fold n.
  destruct n as [|p|p]; simpl; split; try lia; intros _.
  - by rewrite shr_record_of_loc_m.
  - by rewrite shr_m_iter, shr_record_of_loc_m
      by (by rewrite shr_record_of_loc_m).
  - by rewrite shr_record_of_loc_m.
Qed.

Lemma Zdigits2_bounds (m : Z) :
  0 < m → 2 ^ (Zdigits2 m - 1) ≤ m < 2 ^ Zdigits2 m.
Proof. destruct m; try lia. intros _. apply digits2_bounds. Qed.

Lemma Zdigits2_unique (m d : Z) :
  2 ^ (d - 1) ≤ m < 2 ^ d → 0 < d → Zdigits2 m = d.
Proof.
  intros [Hlo Hhi] Hd.
  assert (0 < m) as Hm by (pose proof (Z.pow_pos_nonneg 2 (d - 1)); lia).
  destruct (Zdigits2_bounds m Hm) as [Hlo' Hhi'].
  assert (0 < Zdigits2 m) by (destruct m; simpl; lia).
  destruct (Z.lt_trichotomy (Zdigits2 m) d) as [Hlt|[?|Hgt]]; [|done|].
  - assert (2 ^ Zdigits2 m ≤ 2 ^ (d - 1))
      by (apply Z.pow_le_mono_r; lia). lia.
  - assert (2 ^ d ≤ 2 ^ (Zdigits2 m - 1))
      by (apply Z.pow_le_mono_r; lia). lia.
Qed.

Lemma round_nearest_even_bounds (m : Z) (l : location) :
  m ≤ round_nearest_even m l ≤ m + 1.
Proof. destruct l as [|[]]; simpl; try case_match; lia. Qed.

(** Rounding a mantissa that is at least that of MaxFloat64, once both are
    brought to one exponent, gives MaxFloat64 or more. *)
Lemma binary_round_aux_large (m e : Z) :
  e ≤ 971 → 9007199254740991 * 2 ^ (971 - e) ≤ m →
  binary_round_aux prec emax false m e loc_Exact = S754_infinity false
  ∨ ∃ m', binary_round_aux prec emax false m e loc_Exact
          = S754_finite false m' 971
          ∧ 9007199254740991 ≤ Z.pos m'.
Proof.
  intros He Hm. set (k := 971 - e) in *.
  assert (0 < 2 ^ k) as Hk by (apply Z.pow_pos_nonneg; lia).
  assert (0 < m) as Hpos by nia.
  destruct (Zdigits2_bounds m Hpos) as [Hlo Hhi].
  set (d := Zdigits2 m) in *.
  assert (53 + k ≤ d) as Hd.
  { destruct (Z.le_gt_cases (53 + k) d) as [|Hlt]; [done|].
    assert (2 ^ d ≤ 2 ^ (52 + k)) by (apply Z.pow_le_mono_r; lia).
    rewrite Z.pow_add_r in * by lia. change (2 ^ 52) with 4503599627370496 in *.
    nia. }
  set (n := d - 53).
  assert (fexp prec emax (d + e) - e = n) as Hn.
  { unfold fexp, emin, prec, emax, n. lia. }
  assert (0 < 2 ^ n) as Hn2 by (apply Z.pow_pos_nonneg; lia).
  unfold binary_round_aux.
  pose proof (shr_fexp_m m e loc_Exact (Z.lt_le_incl _ _ Hpos)) as Hs1.
  fold d in Hs1. rewrite Hn in Hs1. cbv zeta in Hs1.
  destruct (shr_fexp prec emax m e loc_Exact) as [mrs1 e1]. simpl in Hs1.
  assert (shr_m mrs1 = m / 2 ^ n ∧ e1 = e + n) as [Hm1 He1].
  { destruct (Z.eq_dec n 0) as [Hz|Hz].
    - rewrite Hz, Z.pow_0_r, Z.div_1_r, Z.add_0_r. apply Hs1. lia.
    - apply Hs1. lia. }
  assert (2 ^ 52 ≤ shr_m mrs1 < 2 ^ 53) as Hb1.
  { rewrite Hm1. split.
    - apply Z.div_le_lower_bound; [done|].
      rewrite Z.mul_comm, <- Z.pow_add_r by lia.
      replace (52 + n) with (d - 1) by lia. done.
    - apply Z.div_lt_upper_bound; [done|].
      rewrite Z.mul_comm, <- Z.pow_add_r by lia.
      replace (53 + n) with d by lia. done. }
  pose proof (round_nearest_even_bounds (shr_m mrs1)
                (loc_of_shr_record mrs1)) as Hr.
  set (m1 := round_nearest_even (shr_m mrs1) (loc_of_shr_record mrs1)) in *.
  change (2 ^ 52) with 4503599627370496 in *.
  change (2 ^ 53) with 9007199254740992 in *.
  pose proof (shr_fexp_m m1 e1 loc_Exact ltac:(lia)) as Hs2.
  cbv zeta in Hs2.
  destruct (Z.eq_dec m1 9007199254740992) as [Hmax|Hnmax].
  - assert (Zdigits2 m1 = 54) as Hd1 by (by rewrite Hmax).
    rewrite Hd1 in Hs2.
    assert (fexp prec emax (54 + e1) - e1 = 1) as Hn1
      by (unfold fexp, emin, prec, emax; lia).
    rewrite Hn1 in Hs2. destruct Hs2 as [_ Hs2].
    destruct (shr_fexp prec emax m1 e1 loc_Exact) as [mrs2 e2].
    simpl in Hs2. destruct Hs2 as [Hm2 He2]; [lia|].
    rewrite Hm2, Hmax. simpl.
    left. unfold emax, prec. rewrite (proj2 (Z.leb_gt _ _)) by lia. done.
  - assert (Zdigits2 m1 = 53) as Hd1.
    { apply Zdigits2_unique; [|lia].
      change (2 ^ (53 - 1)) with 4503599627370496.
      change (2 ^ 53) with 9007199254740992. lia. }
    rewrite Hd1 in Hs2.
    assert (fexp prec emax (53 + e1) - e1 = 0) as Hn1
      by (unfold fexp, emin, prec, emax; lia).
    rewrite Hn1 in Hs2. destruct Hs2 as [Hs2 _].
    destruct (shr_fexp prec emax m1 e1 loc_Exact) as [mrs2 e2].
    simpl in Hs2. destruct Hs2 as [Hm2 He2]; [lia|].
    rewrite Hm2. destruct m1 as [|q|q] eqn:Hq; try lia.
    unfold emax, prec. destruct (Z.leb_spec e2 (1024 - 53)) as [Hle|Hgt];
      [right|by left].
    assert (e2 = 971) as -> by lia. exists q. split; [done|].
    assert (n = k) as Hnk by lia.
    assert (9007199254740991 ≤ shr_m mrs1); [|lia].
    rewrite Hm1, Hnk. apply Z.div_le_lower_bound; [done|]. lia.
Qed.

Lemma binary_round_large (m : positive) (e : Z) :
  e ≤ 971 → 9007199254740991 * 2 ^ (971 - e) ≤ Z.pos m →
  binary_round prec emax false m e = S754_infinity false
  ∨ ∃ m', binary_round prec emax false m e = S754_finite false m' 971
          ∧ 9007199254740991 ≤ Z.pos m'.
Proof.
  intros He Hm. unfold binary_round.
  assert (0 < 2 ^ (971 - e)) as Hk by (apply Z.pow_pos_nonneg; lia).
  destruct (digits2_bounds m) as [_ Hhi].
  assert (53 + (971 - e) ≤ Z.pos (digits2_pos m)) as Hd.
  { destruct (Z.le_gt_cases (53 + (971 - e)) (Z.pos (digits2_pos m)))
      as [|Hlt]; [done|].
    assert (2 ^ Z.pos (digits2_pos m) ≤ 2 ^ (52 + (971 - e)))
      by (apply Z.pow_le_mono_r; lia).
    rewrite Z.pow_add_r in * by lia. change (2 ^ 52) with 4503599627370496 in *.
    nia. }
  assert (shl_align m e (fexp prec emax (Z.pos (digits2_pos m) + e)) = (m, e))
    as ->.
  { unfold shl_align.
    assert (0 ≤ fexp prec emax (Z.pos (digits2_pos m) + e) - e)
      by (unfold fexp, emin, prec, emax; lia).
    by destruct (fexp prec emax (Z.pos (digits2_pos m) + e) - e). }
  by apply binary_round_aux_large.
Qed.

Lemma shl_align_fst (m : positive) (e e' : Z) :
  e' ≤ e → Z.pos (shl_align m e e').1 = Z.pos m * 2 ^ (e - e').
Proof.
  intros He. unfold shl_align.
  destruct (e' - e) as [|p|p] eqn:E; try lia.
  - replace (e - e') with 0 by lia. simpl. lia.
  - replace (e - e') with (Z.pos p) by lia. simpl.
    change (Pos.iter xO m p) with (shift_pos p m).
    rewrite shift_pos_correct, Zpower_pos_nat, Zpower_nat_Z.
    rewrite positive_nat_Z. lia.
Qed.

(** MaxFloat64 plus a float that is not negative is not below
    MaxFloat64: the sum rounds to MaxFloat64 or overflows to +Inf (or is
    NaN). *)
Lemma SFadd_MaxFloat64 (y : spec_float) :
  valid_binary y = true → signless y →
  SFltb (SF64add (S754_finite false 9007199254740991 971) y)
        (S754_finite false 9007199254740991 971) = false.
Proof.
  intros Hv Hy.
  destruct y as [s|s| |s m e]; cbn [signless] in Hy; subst.
  - reflexivity.
  - reflexivity.
  - reflexivity.
  - assert (e ≤ 971) as He.
    { unfold FloatAxioms.valid_binary, SpecFloat.valid_binary, bounded in Hv.
      apply andb_true_iff in Hv as [_ Hv%Z.leb_le]. apply Hv. }
    unfold SF64add, SFadd. rewrite (Z.min_r 971 e) by done.
    unfold cond_Zopp.
    pose proof (shl_align_fst 9007199254740991 971 e He) as H1.
    pose proof (shl_align_fst m e e (Z.le_refl e)) as H2.
    rewrite Z.sub_diag, Z.pow_0_r, Z.mul_1_r in H2.
    assert (0 < 2 ^ (971 - e)) as Hk by (apply Z.pow_pos_nonneg; lia).
    destruct (Z.pos (shl_align 9007199254740991 971 e).1
              + Z.pos (shl_align m e e).1) as [|S|S] eqn:HS; try lia.
    cbn [binary_normalize].
    destruct (binary_round_large S e He) as [->|(m' & -> & Hm')].
    + lia.
    + reflexivity.
    + unfold SFltb, SFcompare. rewrite Z.compare_refl.
      destruct (PosDef.Pos.compare_cont Eq m' 9007199254740991) eqn:Hc;
        try reflexivity.
      exfalso. apply (Z.lt_irrefl 9007199254740991).
      apply (Z.le_lt_trans _ (Z.pos m')); [exact Hm'|exact Hc].
Qed.

Lemma add_MaxFloat64 (y : float) :
  signless (Prim2SF y) → (MaxFloat64 + y <? MaxFloat64)%float = false.
Proof.
  intros Hy. rewrite FloatAxioms.ltb_spec, add_spec.
  apply SFadd_MaxFloat64; [apply Prim2SF_valid|done].
Qed.

(** ** Signs *)

Lemma binary_round_aux_signless (m e : Z) (l : location) :
  signless (binary_round_aux prec emax false m e l).
Proof.
  unfold binary_round_aux.
  destruct (shr_fexp prec emax m e l) as [mrs1 e1].
  destruct (shr_fexp prec emax _ e1 loc_Exact) as [mrs2 e2].
  destruct (shr_m mrs2); [done| |done]. by case_match.
Qed.

(** A square is not negative. *)
Lemma SFmul_diag_signless (x : spec_float) : signless (SF64mul x x).
Proof.
  destruct x as [[]|[]| |[] m e]; try done;
    apply binary_round_aux_signless.
Qed.

(** Neither is the sum of two floats that are not negative. *)
Lemma SFadd_signless (x y : spec_float) :
  signless x → signless y → signless (SF64add x y).
Proof.
  intros Hx Hy.
  destruct x as [?|?| |? mx ex], y as [?|?| |? my ey];
    cbn [signless] in Hx, Hy; subst; try done.
  unfold SF64add, SFadd, cond_Zopp.
  destruct (Z.pos _ + Z.pos _) as [|S|S] eqn:E; try done; try lia.
  cbn [binary_normalize]. unfold binary_round.
  destruct (shl_align S _ _). apply binary_round_aux_signless.
Qed.

Lemma signless_not_negative (x : float) :
  signless (Prim2SF x) → (x <? 0)%float = false.
Proof.
  rewrite FloatAxioms.ltb_spec.
  change (Prim2SF 0) with (S754_zero false).
  by destruct (Prim2SF x) as [?|?| |? m e]; cbn [signless]; intros; subst.
Qed.

(** ** Differences and squares *)

Lemma binary_round_aux_opp (s : bool) (m e : Z) (l : location) :
  binary_round_aux prec emax (negb s) m e l
  = SFopp (binary_round_aux prec emax s m e l).
Proof.
  unfold binary_round_aux.
  destruct (shr_fexp prec emax m e l) as [mrs1 e1].
  destruct (shr_fexp prec emax _ e1 loc_Exact) as [mrs2 e2].
  destruct (shr_m mrs2); [done| |done]. by case_match.
Qed.

Lemma binary_normalize_opp (m e : Z) :
  m ≠ 0 →
  binary_normalize prec emax (- m) e false
  = SFopp (binary_normalize prec emax m e false).
Proof.
  destruct m as [|p|p]; [done| |]; intros _.
  - change (binary_round prec emax true p e
            = SFopp (binary_round prec emax false p e)).
    unfold binary_round. destruct (shl_align p e _).
    apply (binary_round_aux_opp false).
  - change (binary_round prec emax false p e
            = SFopp (binary_round prec emax true p e)).
    unfold binary_round. destruct (shl_align p e _).
    apply (binary_round_aux_opp true).
Qed.

(** y - x is the opposite of x - y, unless both are zeros. *)
Lemma SFsub_swap (x y : spec_float) :
  SF64sub y x = SFopp (SF64sub x y)
  ∨ ∃ s s', SF64sub x y = S754_zero s ∧ SF64sub y x = S754_zero s'.
Proof.
  destruct x as [sx|sx| |sx mx ex], y as [sy|sy| |sy my ey];
    try (left; by destruct sx, sy); try (left; by destruct sx);
    try (left; by destruct sy); try by left.
  - right. destruct sx, sy; by eexists _, _.
  - unfold SF64sub, SFsub. rewrite (Z.min_comm ey ex).
    set (a := cond_Zopp sx _). set (b := cond_Zopp sy _).
    destruct (Z.eq_dec (a - b) 0) as [Hz|Hz].
    + right. replace (b - a) with 0 by lia. rewrite Hz. by eexists _, _.
    + left. replace (b - a) with (- (a - b)) by lia.
      by apply binary_normalize_opp.
Qed.

Lemma SFmul_diag_opp (x : spec_float) :
  SF64mul (SFopp x) (SFopp x) = SF64mul x x.
Proof. by destruct x as [[]|[]| |[] m e]. Qed.

(** The square of a difference does not depend on its direction. *)
Lemma Pow2_sub_swap (x y : float) : Pow2 (x - y) = Pow2 (y - x).
Proof.
  unfold Pow2. apply Prim2SF_inj. rewrite !mul_spec, !sub_spec.
  destruct (SFsub_swap (Prim2SF x) (Prim2SF y))
    as [->|(s & s' & -> & ->)].
  - by rewrite SFmul_diag_opp.
  - by destruct s, s'.
Qed.

(** ** Floats that are not finite *)

Lemma not_finite_spec (x : float) :
  is_finite x = false →
  Prim2SF x = S754_nan ∨ ∃ s, Prim2SF x = S754_infinity s.
Proof.
  unfold is_finite, is_nan, is_infinity.
  rewrite !FloatAxioms.eqb_spec, abs_spec.
  destruct (Prim2SF x) as [s|s| |s m e] eqn:E; eauto.
  - by destruct s.
  - unfold SFeqb. rewrite Float64.SFcompare_refl by done. done.
Qed.

Lemma sub_diag_nan (x : float) :
  is_finite x = false → Prim2SF (x - x) = S754_nan.
Proof.
  intros [Hx|[s Hx]]%not_finite_spec; rewrite sub_spec, Hx; [done|].
  by destruct s.
Qed.

(** 0 + h = h for a float h that is not negative. *)
Lemma add_zero_signless (h : float) :
  signless (Prim2SF h) → (0 + h)%float = h.
Proof.
  intros Hh. apply Prim2SF_inj. rewrite add_spec.
  change (Prim2SF 0) with (S754_zero false).
  by destruct (Prim2SF h) as [s|s| |s m e]; cbn [signless] in Hh; subst.
Qed.

(** Multiplying by 1 is exact: the product of the mantissas is the
    mantissa with 52 zero bits under it, which the rounding shifts out. *)
Lemma shr_52 (m : positive) :
  SpecFloat.iter_pos shr_1 52
    {| shr_m := Z.pos (4503599627370496 * m); shr_r := false; shr_s := false |}
  = {| shr_m := Z.pos m; shr_r := false; shr_s := false |}.
Proof. reflexivity. Qed.

Lemma digits2_52 (m : positive) :
  Z.pos (digits2_pos (4503599627370496 * m)) = Z.pos (digits2_pos m) + 52.
Proof.
  change (4503599627370496 * m)%positive
    with (Pos.iter xO m 52%positive).
  cbn [Pos.iter digits2_pos]. lia.
Qed.

Lemma SFmul_one (x : spec_float) :
  valid_binary x = true → SF64mul x (Prim2SF 1) = x.
Proof.
  change (Prim2SF 1) with (S754_finite false 4503599627370496 (-52)).
  destruct x as [[]|[]| |s m e]; try reflexivity.
  unfold SpecFloat.valid_binary, bounded, canonical_mantissa.
  intros [Hc He]%andb_prop. apply Z.eqb_eq in Hc. apply Z.leb_le in He.
  unfold SF64mul, SFmul. rewrite Pos.mul_comm.
  replace (xorb s false) with s by (by destruct s).
  unfold binary_round_aux, shr_fexp at 1. cbn [Zdigits2].
  rewrite digits2_52.
  replace (Z.pos (digits2_pos m) + 52 + (e + -52))
    with (Z.pos (digits2_pos m) + e) by lia.
  rewrite Hc. replace (e - (e + -52)) with 52 by lia.
  unfold shr at 1. cbn [shr_record_of_loc]. rewrite shr_52.
  cbn [shr_m loc_of_shr_record round_nearest_even].
  replace (e + -52 + 52) with e by lia.
  unfold shr_fexp. cbn [Zdigits2]. rewrite Hc, Z.sub_diag.
  cbn [shr shr_record_of_loc shr_m].
  apply Z.leb_le in He. by rewrite He.
Qed.

Lemma mul_one (x : float) : (x * 1)%float = x.
Proof.
  apply Prim2SF_inj. rewrite mul_spec. apply SFmul_one, Prim2SF_valid.
Qed.

End Rounding.

(** * Reversal in place *)

Section Swaps.
Context {Hex : Type} `{Countable Hex}.

(** [k] swaps exchange the first [k] cells with the last [k], reversing
    both. *)
Lemma swaps_ends (k : nat) (a m b : list Hex) :
  length a = k → length b = k →
  swaps k (a ++ m ++ b) = reverse b ++ m ++ reverse a.
Proof.
  revert a m b. induction k as [|i IH]; intros a m b Ha Hb.
  - by destruct a, b.
  - destruct a as [|x a' _] using rev_ind; [done|].
    destruct b as [|y b']; [done|].
    rewrite length_app in Ha. simpl in Ha, Hb.
    rewrite reverse_snoc, reverse_cons.
    set (l := (a' ++ [x]) ++ m ++ y :: b').
    assert (l = a' ++ x :: (m ++ y :: b')) as Hl1
      by (unfold l; by rewrite <- !app_assoc).
    assert (l = (a' ++ x :: m) ++ y :: b') as Hl2
      by (unfold l; by rewrite <- !app_assoc).
    assert (length l - 1 - i = length (a' ++ x :: m))%nat as Hopp.
    { rewrite Hl2. repeat (rewrite length_app; simpl). lia. }
    assert (l !! i = Some x) as Hi
      by (rewrite Hl1; apply list_lookup_middle; lia).
    assert (l !! (length l - 1 - i)%nat = Some y) as Ho
      by (rewrite Hopp, Hl2; by apply list_lookup_middle).
    simpl. rewrite Hi, Ho, Hopp.
    assert (<[i:=y]> l = (a' ++ y :: m) ++ y :: b') as ->.
    { rewrite Hl1. replace i with (length a' + 0)%nat by lia.
      rewrite insert_app_r. simpl. by rewrite <- app_assoc. }
    replace (length (a' ++ x :: m)) with (length (a' ++ y :: m) + 0)%nat
      by (repeat (rewrite length_app; simpl); lia).
    rewrite insert_app_r. simpl.
    replace ((a' ++ y :: m) ++ x :: b') with (a' ++ (y :: m ++ [x]) ++ b')
      by (simpl; by rewrite <- !app_assoc).
    rewrite IH by lia. simpl. by rewrite <- !app_assoc.
Qed.

Lemma swaps_reverse (l : list Hex) : swaps (length l / 2) l = reverse l.
Proof.
  set (k := (length l / 2)%nat).
  assert (2 * k ≤ length l)%nat as Hk.
  { unfold k. pose proof (Nat.div_mod_eq (length l) 2). lia. }
  assert (length l - 2 * k ≤ 1)%nat as Hm.
  { unfold k. pose proof (Nat.div_mod_eq (length l) 2).
    pose proof (Nat.mod_upper_bound (length l) 2). lia. }
  assert (∃ a m b, l = a ++ m ++ b ∧ length a = k ∧ length b = k
                   ∧ (length m ≤ 1)%nat) as (a & m & b & -> & Ha & Hb & Hlen).
  { exists (take k l), (take (length l - 2 * k) (drop k l)),
      (drop (length l - 2 * k) (drop k l)).
    rewrite !take_drop, !length_take, !length_drop. split_and!; [done|lia..]. }
  clearbody k. rewrite swaps_ends, !reverse_app, <- app_assoc by done.
  by destruct m as [|? [|]]; [..|simpl in Hlen; lia].
Qed.
End Swaps.

(** * The search *)

Section Facts.
Context {Hex : Type} `{Countable Hex}.
Variable W : Cells Hex.

Lemma heuristic_diag (c : Hex) :
  is_finite (X W c) = true → is_finite (Y W c) = true →
  heuristic W c c = 0%float.
Proof.
  intros Fx Fy. unfold heuristic. by rewrite !Float64.sub_diag.
Qed.

(** ** Obstacles *)

Lemma obstructed_first (tentative : float) (n : Hex)
    (pre post : list ContextualObstacle) (o : ContextualObstacle) :
  Forall (λ p, occupies W p n = false) pre →
  occupies W o n = true →
  obstructed W tentative n (pre ++ o :: post) =
    if (ContextualObstacle.Cost o =? Inf)%float then MaxFloat64
    else (tentative * ContextualObstacle.Cost o)%float.
Proof.
  intros Hpre Ho. induction Hpre as [|p pre Hp _ IH]; simpl.
  - by rewrite Ho.
  - by rewrite Hp.
Qed.

(** C6.  When several entries of the obstacle list have the coordinates of
    a neighbor, the cost of the neighbor is computed from the first of them
    in list order: whatever follows it in the list, entries at the same
    coordinates included, changes nothing. *)
Theorem first_obstacle_wins (st : search) (current n : Hex)
    (pre post : list ContextualObstacle) (o : ContextualObstacle) :
  Forall (λ p, occupies W p n = false) pre →
  occupies W o n = true →
  tentativeCost W (pre ++ o :: post) st current n =
    tentativeCost W (pre ++ [o]) st current n
  ∧ tentativeCost W (pre ++ o :: post) st current n =
      if (ContextualObstacle.Cost o =? Inf)%float then MaxFloat64
      else ((at0 (costs st) current + oneStep W)
             * ContextualObstacle.Cost o)%float.
Proof.
  intros Hpre Ho. unfold tentativeCost.
  by rewrite !(obstructed_first _ _ pre _ o Hpre Ho).
Qed.

(** ** The scan for the lowest guess *)

Lemma scan_snoc (g : gmap Hex float) (ks : list Hex) (k : Hex) :
  scan g (ks ++ [k]) = scanStep g (scan g ks) k.
Proof. unfold scan. by rewrite foldl_app. Qed.

(** What the scan holds after any number of keys: nothing and MaxFloat64,
    or a key of the list, its guess, and that guess is below MaxFloat64. *)
Lemma scan_spec (g : gmap Hex float) (ks : list Hex) :
  scan g ks = (None, MaxFloat64)
  ∨ ∃ c, c ∈ ks ∧ scan g ks = (Some c, at0 g c)
         ∧ (at0 g c <? MaxFloat64)%float = true.
Proof.
  induction ks as [|k ks IH] using rev_ind; [by left|].
  rewrite scan_snoc. unfold scanStep.
  destruct IH as [->|(c & Hc & -> & Hlow)]; simpl.
  - destruct (at0 g k <? MaxFloat64)%float eqn:E; [right|by left].
    exists k. split; [set_solver|done].
  - right. destruct (at0 g k <? at0 g c)%float eqn:E.
    + exists k. split_and!; [set_solver|done|].
      by apply (Float64.ltb_trans _ (at0 g c)).
    + exists c. split; [set_solver|done].
Qed.

Lemma scan_selected (g : gmap Hex float) (ks : list Hex) (c : Hex) :
  (scan g ks).1 = Some c →
  c ∈ ks ∧ (at0 g c <? MaxFloat64)%float = true.
Proof.
  destruct (scan_spec g ks) as [->|(c' & ? & -> & ?)]; simpl; [done|].
  by intros [= <-].
Qed.

(** The scan selects nothing exactly when no guess is below MaxFloat64. *)
Lemma scan_None (g : gmap Hex float) (ks : list Hex) :
  (scan g ks).1 = None ↔
  Forall (λ k, (at0 g k <? MaxFloat64)%float = false) ks.
Proof.
  induction ks as [|k ks IH] using rev_ind; [done|].
  rewrite scan_snoc, Forall_app, Forall_singleton, <- IH. unfold scanStep.
  destruct (scan_spec g ks) as [->|(c & ? & -> & ?)]; simpl.
  - destruct (at0 g k <? MaxFloat64)%float; naive_solver.
  - destruct (at0 g k <? at0 g c)%float; naive_solver.
Qed.

(** ** Updating the frontier *)

(** C5.  A neighbor already in the frontier keeps its recorded cost,
    predecessor and priority (the search state does not change at all)
    unless the newly computed cost is strictly lower than the recorded one;
    when the neighbor is inserted, or updated because the new cost is
    strictly lower, its predecessor becomes the expanded cell, its cost the
    new cost and its priority that cost plus heuristic(neighbor, goal).
    The test of the code is the failure of tentative >= costs[n], which
    for numbers (not NaN, as costs are for finite projections and
    multipliers in (0, +Inf]) is tentative < costs[n]. *)
Theorem frontier_update (goal : Hex) (obstacles : list ContextualObstacle)
    (current n : Hex) (st : search) :
  let tentative := tentativeCost W obstacles st current n in
  let st' := visit W goal obstacles current st n in
  key W n ∉ closed st →
  (n ∈ open st →
   is_nan tentative = false → is_nan (at0 (costs st) n) = false →
   (tentative <? at0 (costs st) n)%float = false → st' = st)
  ∧ (n ∈ open st →
     (at0 (costs st) n <=? tentative)%float = true → st' = st)
  ∧ (n ∉ open st ∨ (tentative <? at0 (costs st) n)%float = true →
     cameFrom st' !! n = Some current
     ∧ costs st' !! n = Some tentative
     ∧ guesses st' !! n = Some (tentative + heuristic W n goal)%float).
Proof.
  intros tentative st' Hn. subst st'. unfold visit.
  rewrite decide_False by done. fold tentative. split_and!.
  - intros Ho Nt Nc Hlt. rewrite decide_True by done.
    destruct (at0 (costs st) n <=? tentative)%float eqn:E; [done|].
    apply Float64.not_leb_ltb in E; [congruence|done..].
  - intros Ho Hle. rewrite decide_True by done. by rewrite Hle.
  - intros Hcase.
    assert (∀ s, cameFrom (record W goal current n tentative s) !! n
                   = Some current
                 ∧ costs (record W goal current n tentative s) !! n
                   = Some tentative
                 ∧ guesses (record W goal current n tentative s) !! n
                   = Some (tentative + heuristic W n goal)%float) as Hrec.
    { intros s. simpl. by rewrite !lookup_insert_eq. }
    destruct (decide (n ∈ open st)) as [Ho|Ho]; [|apply Hrec].
    destruct Hcase as [?|Hlt]; [done|].
    destruct (at0 (costs st) n <=? tentative)%float eqn:E; [|apply Hrec].
    apply Float64.leb_ltb_false in E. congruence.
Qed.

(** ** Leaving the loop *)

Variable range : nat → gset Hex → list Hex.
Hypothesis range_perm : ∀ i s, range i s ≡ₚ elements s.

Lemma range_elem (i : nat) (s : gset Hex) (k : Hex) :
  k ∈ range i s ↔ k ∈ s.
Proof. by rewrite range_perm, elem_of_elements. Qed.


(** ** A path of one cell *)

(** C7.  For a cell c (with a finite projection), Navigate from c to c with
    no obstacles returns the one-element sequence [c], whatever the fuel. *)
Theorem Navigate_start_is_goal (c : Hex) (fuel : nat) :
  is_finite (X W c) = true → is_finite (Y W c) = true →
  Navigate W range c c [] (S fuel) = Some (inl [c]).
Proof.
  intros Fx Fy. unfold Navigate. simpl.
  rewrite decide_False by set_solver.
  assert (range 0 {[c]} = [c]) as ->.
  { apply Permutation_singleton_r. by rewrite range_perm, elements_singleton. }
  unfold iteration, scan, scanStep, at0. simpl.
  rewrite lookup_singleton_eq, heuristic_diag by done. simpl.
  rewrite decide_True by done.
  unfold reconstruct. simpl. by rewrite lookup_empty.
Qed.

(** ** Obstacles at the start *)

Lemma occupies_key (o : ContextualObstacle) (a b : Hex) :
  occupies W o a = true → occupies W o b = true → key W a = key W b.
Proof.
  unfold occupies, key.
  intros [->%Z.eqb_eq ->%Z.eqb_eq]%andb_true_iff
         [E1%Z.eqb_eq E2%Z.eqb_eq]%andb_true_iff.
  by rewrite E1, E2.
Qed.

Lemma obstructed_elsewhere (tentative : float) (c n : Hex)
    (obstacles : list ContextualObstacle) :
  key W n ≠ key W c →
  obstructed W tentative n (elsewhere W c obstacles)
  = obstructed W tentative n obstacles.
Proof.
  intros Hn. unfold elsewhere.
  induction obstacles as [|o obstacles IH]; [done|].
  rewrite filter_cons. simpl.
  destruct (occupies W o n) eqn:En.
  - rewrite decide_True; [simpl; by rewrite En|].
    destruct (occupies W o c) eqn:Ec; [|done].
    destruct Hn. by apply (occupies_key o).
  - case_decide; simpl; [by rewrite En|done].
Qed.

Lemma visit_closed (goal : Hex) (obstacles : list ContextualObstacle)
    (current n : Hex) (st : search) :
  closed (visit W goal obstacles current st n) = closed st.
Proof. unfold visit. by repeat case_match. Qed.

Lemma visits_closed (goal : Hex) (obstacles : list ContextualObstacle)
    (current : Hex) (ns : list Hex) (st : search) :
  closed (foldl (visit W goal obstacles current) st ns) = closed st.
Proof.
  revert st. induction ns as [|n ns IH]; intros st; simpl; [done|].
  by rewrite IH, visit_closed.
Qed.

Lemma expand_closed (goal : Hex) (obstacles : list ContextualObstacle)
    (current : Hex) (st : search) :
  closed (expand W goal obstacles current st) = {[key W current]} ∪ closed st.
Proof. unfold expand. by rewrite visits_closed. Qed.

Lemma visit_elsewhere (goal c : Hex) (obstacles : list ContextualObstacle)
    (current n : Hex) (st : search) :
  key W c ∈ closed st →
  visit W goal (elsewhere W c obstacles) current st n
  = visit W goal obstacles current st n.
Proof.
  intros Hc. unfold visit, tentativeCost. case_decide; [done|].
  rewrite obstructed_elsewhere; [done|]. congruence.
Qed.

Lemma visits_elsewhere (goal c : Hex) (obstacles : list ContextualObstacle)
    (current : Hex) (ns : list Hex) (st : search) :
  key W c ∈ closed st →
  foldl (visit W goal (elsewhere W c obstacles) current) st ns
  = foldl (visit W goal obstacles current) st ns.
Proof.
  revert st. induction ns as [|n ns IH]; intros st Hc; simpl; [done|].
  rewrite visit_elsewhere by done. apply IH. by rewrite visit_closed.
Qed.

Lemma loop_elsewhere (start goal : Hex) (obstacles : list ContextualObstacle)
    (rfuel fuel i : nat) (st : search) :
  key W start ∈ closed st ∨ open st ⊆ {[start]} →
  loop W range start goal (elsewhere W start obstacles) rfuel fuel i st
  = loop W range start goal obstacles rfuel fuel i st.
Proof.
  revert i st. induction fuel as [|fuel IH]; intros i st Hst; simpl; [done|].
  case_decide; [done|]. unfold iteration.
  destruct (scan (guesses st) (range i (open st))).1 as [current|] eqn:Hscan;
    [|done].
  case_decide; [done|].
  assert (key W start ∈ closed (settle W current st)) as Hsettled.
  { simpl. destruct Hst as [?|Hopen]; [set_solver|].
    apply scan_selected in Hscan as [Hin%range_elem _].
    assert (current = start) as -> by set_solver. set_solver. }
  unfold expand. rewrite visits_elsewhere by done.
  apply IH. left. by rewrite visits_closed.
Qed.

(** C10.  The entries of the obstacle list at the coordinates of the start
    cell play no part: the start cell is settled in the first turn, before
    any neighbor is looked at, and a neighbor with settled coordinates is
    skipped before the obstacle list is read.  Navigate returns what it
    returns with all entries at the start coordinates removed. *)
Theorem start_obstacles_ignored (start goal : Hex)
    (obstacles : list ContextualObstacle) (fuel : nat) :
  Navigate W range start goal (elsewhere W start obstacles) fuel
  = Navigate W range start goal obstacles fuel.
Proof. apply loop_elsewhere. right. done. Qed.

(** ** The invariant of the search *)

Section Sound.
Variable region : gset Hex.
Variable start goal : Hex.
Variable obstacles : list ContextualObstacle.
Hypothesis identity : canonical W.
Hypothesis region_start : start ∈ region.
Hypothesis region_closed : closedUnder W region.

Lemma size_set_map_le (s : gset Hex) :
  (size (set_map (C := gset Hex) (D := gset Key) (key W) s) ≤ size s)%nat.
Proof.
  induction s as [|x s Hx IH] using set_ind_L.
  - by rewrite set_map_empty, !size_empty.
  - rewrite set_map_union_L, set_map_singleton_L.
    rewrite size_union_alt, (size_union {[x]} s) by set_solver.
    rewrite !size_singleton.
    etrans; [|apply le_n_S, IH].
    apply le_n_S, subseteq_size. set_solver.
Qed.

Lemma settled_in_region (st : search) (n : Hex) :
  sound W region start st → key W n ∈ closed st → n ∈ region.
Proof.
  intros Hs Hn. apply (sound_closed _ _ _ _ Hs) in Hn.
  apply elem_of_map in Hn as (c & Hk & Hc). by rewrite (identity _ _ Hk).
Qed.

Lemma sound_size (st : search) :
  sound W region start st → (size (closed st) ≤ size region)%nat.
Proof.
  intros Hs. etrans; [|apply size_set_map_le].
  apply subseteq_size, Hs.
Qed.

Lemma sound_init : sound W region start (init W start goal).
Proof.
  split; simpl.
  - set_solver.
  - set_solver.
  - set_solver.
  - by left.
  - intros n ->%elem_of_singleton. exists []. split; [|simpl; lia].
    by constructor.
  - set_solver.
Qed.

Lemma trail_mono (st st' : search) (n : Hex) (l : list Hex) :
  cameFrom st' = cameFrom st → closed st ⊆ closed st' →
  trail W start st n l → trail W start st' n l.
Proof.
  intros Hc Hsub. induction 1 as [?|n c l ???? IH].
  - constructor. by rewrite Hc.
  - constructor; [by rewrite Hc|set_solver|done|done].
Qed.

Lemma sound_settle (st : search) (c : Hex) :
  sound W region start st → c ∈ open st →
  sound W region start (settle W c st)
  ∧ key W start ∈ closed (settle W c st)
  ∧ size (closed (settle W c st)) = S (size (closed st)).
Proof.
  intros Hs Hc.
  pose proof (sound_fresh _ _ _ _ Hs c Hc) as Hfresh.
  assert (size (closed (settle W c st)) = S (size (closed st))) as Hsize.
  { simpl. rewrite size_union, size_singleton by set_solver. done. }
  split_and!; [split| |done].
  - simpl. pose proof (sound_open _ _ _ _ Hs). set_solver.
  - simpl. pose proof (sound_open _ _ _ _ Hs).
    pose proof (sound_closed _ _ _ _ Hs).
    assert (key W c ∈ set_map (C := gset Hex) (D := gset Key) (key W) region)
      by (apply elem_of_map; set_solver).
    set_solver.
  - simpl. intros n [Hn Hne]%elem_of_difference.
    intros [Hk%elem_of_singleton|Hk]%elem_of_union.
    + apply Hne, elem_of_singleton. by apply identity.
    + by apply (sound_fresh _ _ _ _ Hs n).
  - right. destruct (sound_start _ _ _ _ Hs) as [Ho|?]; simpl; [|set_solver].
    assert (c = start) as -> by set_solver. set_solver.
  - intros n Hn. destruct (sound_open_trail _ _ _ _ Hs n) as (l & Hl & Hlen).
    { simpl in Hn. set_solver. }
    exists l. split; [|lia].
    eapply trail_mono; [| |done]; simpl; [done|set_solver].
  - intros n Hn. simpl in Hn.
    apply elem_of_union in Hn as [Hk%elem_of_singleton|Hk].
    + apply identity in Hk as ->.
      destruct (sound_open_trail _ _ _ _ Hs c Hc) as (l & Hl & Hlen).
      exists l. split; [|lia].
      eapply trail_mono; [| |done]; simpl; [done|set_solver].
    + destruct (sound_closed_trail _ _ _ _ Hs n Hk) as (l & Hl & Hlen).
      exists l. split; [|lia].
      eapply trail_mono; [| |done]; simpl; [done|set_solver].
  - destruct (sound_start _ _ _ _ Hs) as [Ho|?]; simpl; [|set_solver].
    assert (c = start) as -> by set_solver. set_solver.
Qed.

(** Recording a predecessor for an unsettled cell leaves the trails of the
    other cells as they are. *)
Lemma trail_record (st st' : search) (n m : Hex) (l : list Hex) :
  closed st' = closed st →
  (∀ k, k ≠ n → cameFrom st' !! k = cameFrom st !! k) →
  key W n ∉ closed st → key W start ∈ closed st →
  trail W start st m l → m ≠ n → trail W start st' m l.
Proof.
  intros Hcl Hcf Hn Hstart. induction 1 as [?|m c l ???? IH]; intros Hm.
  - constructor. by rewrite Hcf.
  - constructor; [by rewrite Hcf|by rewrite Hcl|done|].
    apply IH. congruence.
Qed.

Lemma sound_visit (st : search) (current n : Hex) :
  sound W region start st →
  key W start ∈ closed st → key W current ∈ closed st →
  n ∈ Neighbors W current →
  sound W region start (visit W goal obstacles current st n).
Proof.
  intros Hs Hstart Hcur Hn. unfold visit.
  case_decide as Hcl; [done|].
  set (tentative := tentativeCost W obstacles st current n).
  assert (n ∈ region) as Hreg.
  { eapply region_closed; [|done]. by eapply settled_in_region. }
  assert (∀ s, closed s = closed st → cameFrom s = cameFrom st →
               open s = {[n]} ∪ open st →
               sound W region start (record W goal current n tentative s))
    as Hrec.
  { intros s Hc Hf Ho.
    assert (∀ m l, trail W start st m l → m ≠ n →
              trail W start (record W goal current n tentative s) m l)
      as Hkeep.
    { intros m l Hl Hm. eapply trail_record; [..|done|done]; simpl; try done.
      intros k Hk. by rewrite lookup_insert_ne, Hf. }
    split; simpl; rewrite ?Hc, ?Ho.
    - pose proof (sound_open _ _ _ _ Hs). set_solver.
    - apply Hs.
    - intros m [->%elem_of_singleton|Hm]%elem_of_union; [done|].
      by apply (sound_fresh _ _ _ _ Hs).
    - by right.
    - intros m Hm. destruct (decide (m = n)) as [->|Hne].
      + destruct (sound_closed_trail _ _ _ _ Hs current Hcur)
          as (l & Hl & Hlen).
        exists (current :: l). split; [|simpl; lia].
        constructor; simpl; [by rewrite lookup_insert_eq|by rewrite Hc|done|].
        apply Hkeep; [done|]. congruence.
      + destruct (sound_open_trail _ _ _ _ Hs m) as (l & Hl & Hlen);
          [set_solver|].
        exists l. split; [by apply Hkeep|done].
    - intros m Hm.
      destruct (sound_closed_trail _ _ _ _ Hs m Hm) as (l & Hl & Hlen).
      exists l. split; [|done]. apply Hkeep; [done|]. congruence. }
  case_decide as Hopen.
  - case_match; [done|]. apply Hrec; [done..|set_solver].
  - by apply Hrec.
Qed.

Lemma sound_visits (current : Hex) (ns : list Hex) (st : search) :
  sound W region start st →
  key W start ∈ closed st → key W current ∈ closed st →
  ns ⊆ Neighbors W current →
  sound W region start (foldl (visit W goal obstacles current) st ns).
Proof.
  revert st. induction ns as [|n ns IH]; intros st Hs Hstart Hcur Hns;
    simpl; [done|].
  apply IH; rewrite ?visit_closed; [|done|done|set_solver].
  apply sound_visit; [done..|set_solver].
Qed.

Lemma sound_expand (st : search) (c : Hex) :
  sound W region start st → c ∈ open st →
  sound W region start (expand W goal obstacles c st).
Proof.
  intros Hs Hc. destruct (sound_settle st c Hs Hc) as (Hs' & Hstart & _).
  apply sound_visits; [done|done|simpl; set_solver|done].
Qed.

(** ** Termination *)

Lemma follow_trail (st : search) (n : Hex) (l : list Hex) :
  trail W start st n l →
  ∀ fuel result, (length l ≤ fuel)%nat →
    follow fuel (cameFrom st) result (cameFrom st !! n) = Some (result ++ l).
Proof.
  induction 1 as [Hs|n c l Hn _ _ _ IH]; intros fuel result Hlen.
  - rewrite Hs. destruct fuel; simpl; by rewrite app_nil_r.
  - rewrite Hn. destruct fuel as [|fuel]; simpl in *; [lia|].
    rewrite IH by lia. by rewrite <- app_assoc.
Qed.

Lemma reconstruct_trail (st : search) (n : Hex) (l : list Hex) (fuel : nat) :
  trail W start st n l → (length l ≤ fuel)%nat →
  reconstruct fuel (cameFrom st) n = Some (reverse (n :: l)).
Proof.
  intros Hl Hlen. unfold reconstruct.
  rewrite (follow_trail st n l Hl fuel [n] Hlen).
  change (Some (swaps (length (n :: l) / 2) (n :: l))
          = Some (reverse (n :: l))).
  by rewrite swaps_reverse.
Qed.

(** One turn from a sound state: the loop returns the selected goal, or
    breaks, or settles a cell of the frontier whose coordinates were not
    settled, and goes on from a sound state. *)
Lemma sound_iteration (i : nat) (st : search) :
  sound W region start st →
  match iteration W goal obstacles (range i (open st)) st with
  | Return current => current = goal ∧ current ∈ open st
  | Break => True
  | Next st' =>
      ∃ c, c ∈ open st ∧ (c ∉ open st') ∧ (key W c ∉ closed st)
           ∧ st' = expand W goal obstacles c st
           ∧ closed st' = {[key W c]} ∪ closed st
           ∧ sound W region start st'
  end.
Proof.
  intros Hs. unfold iteration.
  destruct (scan (guesses st) (range i (open st))).1 as [c|] eqn:Hscan;
    [|done].
  apply scan_selected in Hscan as [Hc%range_elem _].
  case_decide; [done|].
  pose proof (sound_expand st c Hs Hc) as Hs'.
  exists c. split_and!; try done.
  - intros Hin%(sound_fresh _ _ _ _ Hs'). apply Hin.
    rewrite expand_closed. set_solver.
  - by apply (sound_fresh _ _ _ _ Hs).
  - apply expand_closed.
Qed.

Lemma loop_terminates (rfuel fuel i : nat) (st : search) :
  sound W region start st →
  (size region < rfuel)%nat →
  (size region - size (closed st) < fuel)%nat →
  is_Some (loop W range start goal obstacles rfuel fuel i st).
Proof.
  intros Hs Hr. revert i st Hs.
  induction fuel as [|fuel IH]; intros i st Hs Hfuel; [lia|]. simpl.
  case_decide; [done|].
  pose proof (sound_iteration i st Hs) as Hit.
  destruct (iteration W goal obstacles (range i (open st)) st)
    as [current| |st'].
  - destruct Hit as [_ Hopen].
    destruct (sound_open_trail _ _ _ _ Hs current Hopen) as (l & Hl & Hlen).
    pose proof (sound_size st Hs).
    rewrite (reconstruct_trail st current l) by (done || lia). done.
  - done.
  - destruct Hit as (c & Hc & _ & Hfresh & _ & Hcl & Hs').
    apply IH; [done|].
    pose proof (sound_size st' Hs').
    rewrite Hcl, size_union, size_singleton in * by set_solver. lia.
Qed.

Lemma sound_turns (k : nat) (st : search) :
  turns W range start goal obstacles k = Some st →
  sound W region start st ∧ size (closed st) = k.
Proof.
  revert st. induction k as [|k IH]; intros st; simpl.
  - intros [= <-]. split; [apply sound_init; done|]. by simpl.
  - destruct (turns W range start goal obstacles k) as [st0|]; [|done].
    simpl. destruct (IH st0 eq_refl) as [Hs Hsize].
    case_decide; [done|].
    pose proof (sound_iteration k st0 Hs) as Hit.
    destruct (iteration W goal obstacles (range k (open st0)) st0);
      [done|done|].
    intros [= <-]. destruct Hit as (c & _ & _ & Hfresh & _ & Hcl & Hs').
    split; [done|].
    rewrite Hcl, size_union, size_singleton by set_solver. lia.
Qed.

Lemma Navigate_returns (fuel : nat) :
  (size region < fuel)%nat →
  is_Some (Navigate W range start goal obstacles fuel).
Proof.
  intros Hfuel. apply loop_terminates; [|done|lia]. by apply sound_init.
Qed.

(** The loop of [Navigate] goes through the states that [turns] lists. *)
Lemma loop_turns (k : nat) (st : search) (rfuel fuel : nat) :
  turns W range start goal obstacles k = Some st →
  loop W range start goal obstacles rfuel (k + fuel) 0 (init W start goal)
  = loop W range start goal obstacles rfuel fuel k st.
Proof.
  revert st fuel. induction k as [|k IH]; intros st' fuel Hk.
  - by injection Hk as <-.
  - simpl in Hk.
    destruct (turns W range start goal obstacles k) as [st|]; [|done].
    simpl in Hk. case_decide as Hopen; [done|].
    destruct (iteration W goal obstacles (range k (open st)) st) eqn:Hit;
      [done|done|].
    injection Hk as <-. replace (S k + fuel)%nat with (k + S fuel)%nat by lia.
    rewrite (IH st (S fuel) eq_refl). simpl.
    by rewrite decide_False, Hit.
Qed.

(** ** Routes *)

Lemma linked_snoc (p : list Hex) (c n : Hex) :
  linked W p → last p = Some c → n ∈ Neighbors W c → linked W (p ++ [n]).
Proof.
  intros Hp Hc Hn. induction p as [|a [|b q] IH]; [done| |].
  - injection Hc as ->. by split.
  - destruct Hp as [Hab Hq]. split; [done|].
    apply IH; [done|]. by rewrite last_cons_cons in Hc.
Qed.

Lemma route_snoc (p : list Hex) (c n : Hex) :
  route W start c p → n ∈ Neighbors W c → route W start n (p ++ [n]).
Proof.
  intros (Hh & Hl & Hp) Hn. split_and!.
  - destruct p; [done|]. done.
  - apply last_snoc.
  - by apply (linked_snoc p c).
Qed.

Lemma trail_route (st : search) (n : Hex) (l : list Hex) :
  trail W start st n l → route W start n (reverse (n :: l)).
Proof.
  induction 1 as [?|n c l _ _ Hn _ IH]; [done|].
  rewrite reverse_cons. by apply (route_snoc _ c).
Qed.

(** ** A search with no obstacle *)

Section Free.
Hypothesis free : ∀ tentative n, obstructed W tentative n obstacles = tentative.
Hypothesis fits : affordable W region start goal.

Lemma priced_init : priced W region goal (init W start goal).
Proof.
  split; simpl.
  - intros n ->%elem_of_singleton. unfold at0.
    rewrite lookup_singleton_eq. apply (proj1 fits).
  - intros n ->%elem_of_singleton. exists 0%nat.
    by rewrite lookup_singleton_eq.
  - set_solver.
  - set_solver.
Qed.

Lemma priced_settle (st : search) (c : Hex) :
  sound W region start st → priced W region goal st →
  c ∈ open st → c ≠ goal →
  priced W region goal (settle W c st).
Proof.
  intros Hs Hp Hc Hgoal.
  destruct (sound_settle st c Hs Hc) as (_ & _ & Hsize).
  split; rewrite ?Hsize; simpl.
  - intros n Hn. apply (priced_guess _ _ _ _ Hp). set_solver.
  - intros n Hn. destruct (priced_open _ _ _ _ Hp n) as (k & Hk & Hcost);
      [set_solver|].
    exists k. split; [lia|done].
  - intros n [Hn%elem_of_singleton|Hn]%elem_of_union.
    + apply identity in Hn as ->.
      destruct (priced_open _ _ _ _ Hp c Hc) as (k & Hk & Hcost).
      exists k. split; [lia|done].
    + destruct (priced_closed _ _ _ _ Hp n Hn) as (k & Hk & Hcost).
      exists k. split; [lia|done].
  - intros [Hk%elem_of_singleton|Hk]%elem_of_union.
    + by apply identity in Hk.
    + by apply (priced_goal _ _ _ _ Hp).
Qed.

Lemma bordered_settle (st : search) (c : Hex) :
  bordered W st → borderedBut W c [] (settle W c st).
Proof.
  intros Hb c' n Hc' Hn [Hne|Hin]; [|set_solver]. simpl in *.
  apply elem_of_union in Hc' as [Hk%elem_of_singleton|Hc'].
  { by apply identity in Hk. }
  destruct (Hb c' n Hc' Hn) as [?|Hopen]; [set_solver|].
  destruct (decide (n = c)) as [->|?]; set_solver.
Qed.

Lemma priced_visit (st : search) (current n : Hex) :
  sound W region start st → priced W region goal st →
  key W current ∈ closed st → n ∈ Neighbors W current →
  priced W region goal (visit W goal obstacles current st n).
Proof.
  intros Hs Hp Hcur Hn. unfold visit. case_decide as Hcl; [done|].
  destruct (priced_closed _ _ _ _ Hp current Hcur) as (k & Hk & Hcost).
  assert (tentativeCost W obstacles st current n = stepsCost W (S k)) as ->.
  { unfold tentativeCost, at0. by rewrite free, Hcost. }
  assert (n ∈ region) as Hreg.
  { eapply region_closed; [|done]. by eapply settled_in_region. }
  pose proof (sound_size st Hs) as Hsize.
  assert (∀ s, closed s = closed st → costs s = costs st →
               guesses s = guesses st → open s = {[n]} ∪ open st →
    priced W region goal (record W goal current n (stepsCost W (S k)) s))
    as Hrec.
  { intros s Hc Hco Hg Ho. split; simpl; rewrite ?Hc, ?Hco, ?Hg, ?Ho.
    - intros m Hm. unfold at0. destruct (decide (m = n)) as [->|Hne].
      + rewrite lookup_insert_eq. simpl. apply (proj2 fits n (S k)); [done|lia].
      + rewrite lookup_insert_ne by done.
        apply (priced_guess _ _ _ _ Hp). set_solver.
    - intros m Hm. destruct (decide (m = n)) as [->|Hne].
      + exists (S k). split; [lia|]. by rewrite lookup_insert_eq.
      + rewrite lookup_insert_ne by done.
        apply (priced_open _ _ _ _ Hp). set_solver.
    - intros m Hm. rewrite lookup_insert_ne by congruence.
      by apply (priced_closed _ _ _ _ Hp).
    - apply Hp. }
  case_decide.
  - case_match; [done|]. apply Hrec; [done..|set_solver].
  - by apply Hrec.
Qed.

Lemma visit_open (st : search) (current n : Hex) :
  open st ⊆ open (visit W goal obstacles current st n)
  ∧ (key W n ∈ closed st ∨ n ∈ open (visit W goal obstacles current st n)).
Proof.
  unfold visit. case_decide; [by auto|]. case_decide.
  - case_match; simpl; by auto.
  - simpl. set_solver.
Qed.

Lemma bordered_visit (st : search) (c n : Hex) (visited : list Hex) :
  borderedBut W c visited st →
  borderedBut W c (visited ++ [n]) (visit W goal obstacles c st n).
Proof.
  intros Hb c' m. rewrite visit_closed. intros Hc' Hm Hcase.
  destruct (visit_open st c n) as [Hsub Hn].
  destruct Hcase as [Hne|[Hin|Heq%list_elem_of_singleton]%elem_of_app].
  - destruct (Hb c' m) as [?|?]; auto.
  - destruct (Hb c' m) as [?|?]; auto.
  - by subst m.
Qed.

Lemma complete_visits (c : Hex) (ns visited : list Hex) (st : search) :
  Neighbors W c = visited ++ ns →
  sound W region start st → priced W region goal st →
  borderedBut W c visited st →
  key W start ∈ closed st → key W c ∈ closed st →
  priced W region goal (foldl (visit W goal obstacles c) st ns)
  ∧ bordered W (foldl (visit W goal obstacles c) st ns).
Proof.
  revert visited st.
  induction ns as [|n ns IH]; intros visited st Hns Hs Hp Hb Hstart Hc; simpl.
  - split; [done|]. intros c' m Hc' Hm. apply (Hb c' m Hc' Hm).
    destruct (decide (c' = c)) as [->|?]; [right|by left].
    by rewrite Hns, app_nil_r in Hm.
  - assert (n ∈ Neighbors W c) as Hn by (rewrite Hns; set_solver).
    apply (IH (visited ++ [n])); rewrite ?visit_closed; try done.
    + by rewrite <- app_assoc.
    + by apply sound_visit.
    + by apply priced_visit.
    + by apply bordered_visit.
Qed.

Lemma complete_expand (st : search) (c : Hex) :
  sound W region start st → priced W region goal st → bordered W st →
  c ∈ open st → c ≠ goal →
  priced W region goal (expand W goal obstacles c st)
  ∧ bordered W (expand W goal obstacles c st).
Proof.
  intros Hs Hp Hb Hc Hgoal.
  destruct (sound_settle st c Hs Hc) as (Hs' & Hstart & _).
  apply (complete_visits c _ []); try done.
  - by apply priced_settle.
  - by apply bordered_settle.
  - simpl. set_solver.
Qed.

(** While the goal can be reached from the start and is not settled, a
    cell of some route to it is in the frontier. *)
Lemma frontier_inhabited (st : search) (p : list Hex) (a : Hex) :
  bordered W st → key W goal ∉ closed st →
  linked W (a :: p) → last (a :: p) = Some goal →
  a ∈ open st ∨ key W a ∈ closed st →
  ∃ n, n ∈ open st.
Proof.
  intros Hb Hgoal. revert a.
  induction p as [|b p IH]; intros a Hp Hlast [Ha|Ha]; try by exists a.
  - injection Hlast as ->. done.
  - destruct Hp as [Hab Hp]. rewrite last_cons_cons in Hlast.
    apply (IH b Hp Hlast). destruct (Hb a b Ha Hab); auto.
Qed.

Lemma loop_finds (p0 : list Hex) (rfuel fuel i : nat) (st : search) :
  route W start goal p0 →
  sound W region start st → priced W region goal st → bordered W st →
  (size region < rfuel)%nat →
  (size region - size (closed st) < fuel)%nat →
  ∃ p, loop W range start goal obstacles rfuel fuel i st = Some (inl p)
       ∧ route W start goal p.
Proof.
  intros (Hhead & Hlast & Hlinked) Hs Hp Hb Hr. revert i st Hs Hp Hb.
  induction fuel as [|fuel IH]; intros i st Hs Hp Hb Hfuel; [lia|]. simpl.
  destruct p0 as [|a p0]; [done|]. injection Hhead as ->.
  destruct (frontier_inhabited st p0 start Hb (priced_goal _ _ _ _ Hp)
              Hlinked Hlast) as [n Hn].
  { destruct (sound_start _ _ _ _ Hs) as [->|?]; [left; set_solver|by right]. }
  rewrite decide_False by set_solver.
  unfold iteration.
  destruct (scan (guesses st) (range i (open st))).1 as [c|] eqn:Hscan.
  - apply scan_selected in Hscan as [Hc%range_elem _].
    case_decide as Hgoal.
    + subst c.
      destruct (sound_open_trail _ _ _ _ Hs goal Hc) as (l & Hl & Hlen).
      pose proof (sound_size st Hs).
      rewrite (reconstruct_trail st goal l) by (done || lia). simpl.
      eexists. split; [done|]. by eapply trail_route.
    + destruct (complete_expand st c Hs Hp Hb Hc Hgoal) as [Hp' Hb'].
      pose proof (sound_expand st c Hs Hc) as Hs'.
      apply IH; [done..|].
      pose proof (sound_size _ Hs').
      pose proof (sound_fresh _ _ _ _ Hs c Hc).
      rewrite expand_closed, size_union, size_singleton in * by set_solver.
      lia.
  - apply scan_None in Hscan. rewrite Forall_forall in Hscan.
    specialize (Hscan n). rewrite range_elem in Hscan.
    rewrite (priced_guess _ _ _ _ Hp n Hn) in Hscan. by specialize (Hscan Hn).
Qed.

Lemma bordered_init : bordered W (init W start goal).
Proof. intros c n Hc. simpl in Hc. set_solver. Qed.

Lemma Navigate_finds (p0 : list Hex) (fuel : nat) :
  route W start goal p0 → (size region < fuel)%nat →
  ∃ p, Navigate W range start goal obstacles fuel = Some (inl p)
       ∧ route W start goal p.
Proof.
  intros Hp0 Hfuel.
  apply (loop_finds p0 fuel fuel 0 (init W start goal) Hp0 (sound_init)
           priced_init bordered_init Hfuel).
  lia.
Qed.

End Free.

End Sound.

End Facts.

(** * The search on the sample fields *)

Lemma inOrder_perm {Hex : Type} `{Countable Hex} (i : nat) (s : gset Hex) :
  inOrder i s ≡ₚ elements s.
Proof. reflexivity. Qed.

Lemma hexField_canonical (cells : list Key) : canonical (hexField cells).
Proof. intros [a b] [c d]. unfold key. simpl. congruence. Qed.

Lemma hexField_closedUnder (cells : list Key) :
  closedUnder (hexField cells) (list_to_set cells).
Proof.
  intros c n _ Hn. simpl in Hn. apply list_elem_of_filter in Hn as [Hn _].
  by apply elem_of_list_to_set.
Qed.

Lemma litField_closedUnder (cells : list Key) :
  closedUnder (litField cells) (list_to_set (pair false <$> cells)).
Proof.
  intros c n _ Hn. simpl in Hn.
  apply list_elem_of_fmap in Hn as (x & -> & Hx).
  apply list_elem_of_filter in Hx as [Hx _].
  apply elem_of_list_to_set, list_elem_of_fmap. by exists x.
Qed.

Lemma twinField_closedUnder (cells : list Key) :
  closedUnder (twinField cells)
    (list_to_set (n ← cells; [(false, n); (true, n)])).
Proof.
  intros c n _ Hn. simpl in Hn.
  apply list_elem_of_bind in Hn as (x & Hn & Hx).
  apply list_elem_of_filter in Hx as [Hx _].
  apply elem_of_list_to_set, list_elem_of_bind. by exists x.
Qed.

Lemma affordableb_spec {Hex : Type} `{Countable Hex} (W : Cells Hex)
    (region : gset Hex) (start goal : Hex) :
  affordableb W region start goal = true → affordable W region start goal.
Proof.
  unfold affordableb. intros [H0 Hall]%andb_true_iff. split; [done|].
  intros n k Hn Hk. rewrite forallb_forall in Hall.
  specialize (Hall n). rewrite forallb_forall in Hall.
  apply Hall.
  - apply list_elem_of_In, elem_of_elements, Hn.
  - apply in_seq. lia.
Qed.

(** C3 (amended).  On a finite region (one cell per coordinate pair) whose
    priorities all stay below MaxFloat64, whenever some sequence of
    neighboring cells leads from start to goal, Navigate with an empty
    obstacle list succeeds, and the sequence it returns runs from start to
    goal inclusive by steps between neighbors.  (Its number of steps is
    therefore at least the minimal step distance; it can be greater.) *)
Theorem Navigate_reaches_goal {Hex : Type} `{Countable Hex} (W : Cells Hex)
    (range : nat → gset Hex → list Hex) (region : gset Hex)
    (start goal : Hex) (p0 : list Hex) (fuel : nat) :
  (∀ i s, range i s ≡ₚ elements s) →
  canonical W → start ∈ region → closedUnder W region →
  affordable W region start goal →
  route W start goal p0 →
  (size region < fuel)%nat →
  ∃ p, Navigate W range start goal [] fuel = Some (inl p)
       ∧ route W start goal p.
Proof.
  intros Hrange Hid Hstart Hclosed Hfits Hp0 Hfuel.
  by apply (Navigate_finds W range Hrange region start goal [] Hid Hstart
              Hclosed (λ _ _, eq_refl) Hfits p0 fuel).
Qed.

Lemma Navigate_reaches_goal_witness :
  ∃ p, Navigate patch inOrder (0, 0) (1, 1) [] 5 = Some (inl p)
       ∧ route patch (0, 0) (1, 1) p.
Proof.
  apply (Navigate_reaches_goal patch inOrder patchRegion (0, 0) (1, 1)
           [(0, 0); (1, 0); (1, 1)] 5).
  - apply inOrder_perm.
  - apply hexField_canonical.
  - by vm_compute.
  - apply hexField_closedUnder.
  - apply affordableb_spec. by vm_compute.
  - split_and!; [done|done|].
    simpl. split_and!; try done; apply (bool_decide_unpack _); by vm_compute.
  - vm_compute. lia.
Defined.

(** C3, as stated, fails.  On [corridor], with no obstacle, Navigate goes
    from (0,0) to (3,2) in seven steps, by the longer branch, whose cells
    are nearer to the goal as the crow flies; there is a way in six. *)
Lemma detour_longer_than_shortest :
  Navigate corridor inOrder (0, 0) (3, 2) [] 10
  = Some (inl [(0, 0); (1, 0); (1, 1); (0, 2); (0, 3); (1, 3); (2, 2);
               (3, 2)])
  ∧ route corridor (0, 0) (3, 2)
      [(0, 0); (0, 1); (0, 2); (0, 3); (1, 3); (2, 2); (3, 2)].
Proof.
  split; [by vm_compute|].
  split_and!; [done|done|].
  simpl. split_and!; try done; apply (bool_decide_unpack _); by vm_compute.
Qed.

(** C1.  The code multiplies the whole tentative cost, the cost recorded
    for the expanded cell included, by the multiplier.  On [row] with hex
    (2,0) twice as slow, once (1,0) has the cost of one step, the cost
    computed for (2,0) is (oneStep + oneStep) * 2, four steps, where one
    step charged twice after the first makes three. *)
Theorem multiplier_on_whole_cost :
  at0 (costs (rowExpanded [slow 2 0])) (1, 0) = oneStep row
  ∧ tentativeCost row [slow 2 0] (rowExpanded [slow 2 0]) (1, 0) (2, 0)
    = ((oneStep row + oneStep row) * 2)%float
  ∧ PrimFloat.ltb (oneStep row + oneStep row * 2)%float
       (tentativeCost row [slow 2 0] (rowExpanded [slow 2 0]) (1, 0) (2, 0))
    = true
  ∧ (turns row inOrder (0, 0) (2, 0) [slow 2 0] 2 ≫= λ st, costs st !! (2, 0))
    = Some ((oneStep row + oneStep row) * 2)%float.
Proof. by vm_compute. Qed.

(** C2, as stated, fails.  The goal given as a struct literal with the
    coordinates of a cell of the field is not found, while the cell of the
    field with these coordinates is: the goal test is on the reference. *)
Lemma literal_goal_not_found :
  key patchLit (false, (0, 1)) = key patchLit (lit patchLit 0 1)
  ∧ Navigate patchLit inOrder (false, (0, 0)) (false, (0, 1)) [] 9
    = Some (inl [(false, (0, 0)); (false, (0, 1))])
  ∧ Navigate patchLit inOrder (false, (0, 0)) (lit patchLit 0 1) [] 9
    = Some (inr (NoPathAvailable 0 0 0 1)).
Proof. by vm_compute. Qed.

(** C4, as stated, fails.  With two entries at the coordinates of the
    goal, the first passable and the second impassable, Navigate returns a
    path to the goal. *)
Lemma passable_entry_first :
  Navigate patch inOrder (0, 0) (0, 1) [plain 0 1; wall 0 1] 9
  = Some (inl [(0, 0); (0, 1)]).
Proof. by vm_compute. Qed.

(** C2 (amended).  The settled set identifies a cell by its coordinate
    pair: a neighbor whose coordinates are settled is skipped, whatever its
    reference.  The frontier, the cost maps and the goal test identify a
    cell by its reference: a neighbor whose reference is not in the
    frontier is inserted, and a turn returns exactly when the selected
    reference is the goal's.  When the cell model has one reference per
    coordinate pair the two agree: cells with equal coordinates are the
    same node for the frontier test, the cost map and the goal test, no two
    cells of the frontier share coordinates, and the turn returns when the
    selected cell has the coordinates of the goal. *)
Theorem cells_by_reference {Hex : Type} `{Countable Hex} (W : Cells Hex)
    (goal : Hex) (obstacles : list ContextualObstacle)
    (st : @search Hex _ _) :
  (∀ current a b, key W a = key W b → key W a ∈ closed st →
     visit W goal obstacles current st a = st
     ∧ visit W goal obstacles current st b = st)
  ∧ (∀ current n, key W n ∉ closed st → n ∉ open st →
       open (visit W goal obstacles current st n) = {[n]} ∪ open st)
  ∧ (∀ ks c, (scan (guesses st) ks).1 = Some c →
       iteration W goal obstacles ks st = Return c ↔ c = goal)
  ∧ (canonical W →
       (∀ a b, key W a = key W b →
          (a ∈ open st ↔ b ∈ open st)
          ∧ costs st !! a = costs st !! b
          ∧ (a = goal ↔ b = goal))
       ∧ (∀ a b, a ∈ open st → b ∈ open st → key W a = key W b → a = b)
       ∧ (∀ ks c, (scan (guesses st) ks).1 = Some c →
            key W c = key W goal →
            iteration W goal obstacles ks st = Return c)).
Proof.
  split_and!.
  - intros current a b Hab Ha. unfold visit.
    rewrite <- Hab. by rewrite !decide_True.
  - intros current n Hcl Hopen. unfold visit.
    by rewrite !decide_False.
  - intros ks c Hscan. unfold iteration. rewrite Hscan.
    case_decide; split; congruence.
  - intros Hid. split_and!.
    + intros a b ->%Hid. done.
    + intros a b _ _. apply Hid.
    + intros ks c Hscan ->%Hid. unfold iteration. rewrite Hscan.
      by rewrite decide_True.
Qed.

Lemma first_obstacle_wins_witness :
  tentativeCost patch ([wall 1 0] ++ slow 0 1 :: [wall 0 1])
    (init patch (0, 0) (1, 1)) (0, 0) (0, 1)
  = tentativeCost patch ([wall 1 0] ++ [slow 0 1])
      (init patch (0, 0) (1, 1)) (0, 0) (0, 1)
  ∧ tentativeCost patch ([wall 1 0] ++ slow 0 1 :: [wall 0 1])
      (init patch (0, 0) (1, 1)) (0, 0) (0, 1)
    = if (ContextualObstacle.Cost (slow 0 1) =? Inf)%float then MaxFloat64
      else PrimFloat.mul
             (at0 (costs (init patch (0, 0) (1, 1))) (0, 0) + oneStep patch)
             (ContextualObstacle.Cost (slow 0 1)).
Proof.
  apply (first_obstacle_wins patch (init patch (0, 0) (1, 1)) (0, 0) (0, 1)
           [wall 1 0] [wall 0 1] (slow 0 1)).
  - constructor; [by vm_compute|constructor].
  - by vm_compute.
Defined.

Lemma frontier_update_witness :
  (0, 1) ∈ open (patchExpanded [])
  ∧ visit patch (1, 1) [] (1, 0) (patchExpanded []) (0, 1)
    = patchExpanded [].
Proof.
  split; [by vm_compute|].
  apply (frontier_update patch (1, 1) [] (1, 0) (0, 1) (patchExpanded []));
    by vm_compute.
Defined.

Lemma Navigate_start_is_goal_witness :
  Navigate patch inOrder (0, 0) (0, 0) [] 1 = Some (inl [(0, 0)]).
Proof.
  apply (Navigate_start_is_goal patch inOrder inOrder_perm (0, 0) 0);
    by vm_compute.
Defined.

Lemma start_obstacles_ignored_witness :
  Navigate patch inOrder (0, 0) (1, 1)
    (elsewhere patch (0, 0) [wall 0 0; slow 0 1]) 9
  = Navigate patch inOrder (0, 0) (1, 1) [wall 0 0; slow 0 1] 9.
Proof.
  apply (start_obstacles_ignored patch inOrder inOrder_perm (0, 0) (1, 1)).
Defined.


(** * The search on any cell model *)

Section Further.
Context {Hex : Type} `{Countable Hex}.
Variable W : Cells Hex.


(** ** reconstruct *)

Lemma follow_follows (prevs : gmap Hex Hex) (fuel : nat) :
  ∀ (n : Hex) (result r : list Hex),
    follow fuel prevs result (prevs !! n) = Some r →
    ∃ l, follows prevs n l ∧ (length l ≤ fuel)%nat ∧ r = result ++ l.
Proof.
  induction fuel as [|fuel IH]; intros n result r;
    destruct (prevs !! n) as [c|] eqn:Hn; simpl; try done.
  - intros [= <-]. exists []. split_and!; [by constructor|done|].
    by rewrite app_nil_r.
  - intros (l & Hl & Hlen & ->)%IH. exists (c :: l).
    split_and!; [by econstructor|simpl; lia|]. by rewrite <- app_assoc.
  - intros [= <-]. exists []. split_and!; [by constructor|simpl; lia|].
    by rewrite app_nil_r.
Qed.

Lemma follows_follow (prevs : gmap Hex Hex) (n : Hex) (l : list Hex) :
  follows prevs n l →
  ∀ fuel result, (length l ≤ fuel)%nat →
    follow fuel prevs result (prevs !! n) = Some (result ++ l).
Proof.
  induction 1 as [n Hn|n c l Hn _ IH]; intros fuel result Hlen; rewrite Hn.
  - destruct fuel; simpl; by rewrite app_nil_r.
  - destruct fuel as [|fuel]; simpl in *; [lia|].
    rewrite IH by lia. by rewrite <- app_assoc.
Qed.

Lemma reconstruct_follows (prevs : gmap Hex Hex) (current : Hex)
    (fuel : nat) (p : list Hex) :
  reconstruct fuel prevs current = Some p →
  ∃ l, follows prevs current l ∧ (length l ≤ fuel)%nat
       ∧ p = reverse (current :: l).
Proof.
  unfold reconstruct.
  destruct (follow fuel prevs [current] (prevs !! current)) as [r|] eqn:E;
    [|done].
  apply follow_follows in E as (l & Hl & Hlen & ->).
  intros [= <-]. exists l. split_and!; [done..|].
  apply (swaps_reverse (current :: l)).
Qed.

Lemma follows_unique (prevs : gmap Hex Hex) (n : Hex) (l l' : list Hex) :
  follows prevs n l → follows prevs n l' → l = l'.
Proof.
  intros Hl. revert l'.
  induction Hl as [n Hn|n c l Hn _ IH]; intros l' Hl'; inversion Hl';
    subst; try congruence.
  assert (c0 = c) as -> by congruence. f_equal. by apply IH.
Qed.

(** X1.  reconstruct returns the chain of predecessors of [current],
    reversed: it ends with [current], each cell is the predecessor of the
    next, and the first has no predecessor. It returns exactly when that
    chain ends (within the fuel). *)
Theorem reconstruct_chain (prevs : gmap Hex Hex) (current : Hex)
    (fuel : nat) (p : list Hex) :
  reconstruct fuel prevs current = Some p ↔
  ∃ l, follows prevs current l ∧ (length l ≤ fuel)%nat
       ∧ p = reverse (current :: l).
Proof.
  split; [apply reconstruct_follows|]. unfold reconstruct.
  - intros (l & Hl & Hlen & ->).
    rewrite (follows_follow prevs current l Hl fuel [current] Hlen).
    simpl. f_equal. apply (swaps_reverse (current :: l)).
Qed.

(** X2.  reconstruct does not return when the predecessors of [current]
    never end: when [current] belongs to a set of cells each of which has
    its predecessor in the set (a cycle of [prevs], say). *)
Theorem reconstruct_endless (prevs : gmap Hex Hex) (cells : gset Hex)
    (current : Hex) (fuel : nat) :
  (∀ n, n ∈ cells → ∃ c, prevs !! n = Some c ∧ c ∈ cells) →
  current ∈ cells →
  reconstruct fuel prevs current = None.
Proof.
  intros Hcells Hcur.
  destruct (reconstruct fuel prevs current) as [p|] eqn:E; [|done].
  unfold reconstruct in E.
  destruct (follow fuel prevs [current] (prevs !! current)) as [r|] eqn:E';
    [|done].
  apply follow_follows in E' as (l & Hl & _). exfalso. clear E.
  induction Hl as [n Hn|n c l Hn _ IH].
  - destruct (Hcells n Hcur) as (c & Hc & _). congruence.
  - destruct (Hcells n Hcur) as (c' & Hc & Hin). apply IH. congruence.
Qed.


(** ** heuristic *)

Lemma heuristic_signless (a b : Hex) : signless (Prim2SF (heuristic W a b)).
Proof.
  unfold heuristic, Pow2. rewrite add_spec, !mul_spec.
  apply Rounding.SFadd_signless; apply Rounding.SFmul_diag_signless.
Qed.

(** X3.  heuristic is never negative: it is NaN, or 0 <= heuristic(a, b). *)
Theorem heuristic_not_negative (a b : Hex) :
  (heuristic W a b <? 0)%float = false
  ∧ (is_nan (heuristic W a b) = true
     ∨ (0 <=? heuristic W a b)%float = true).
Proof.
  assert ((heuristic W a b <? 0)%float = false) as Hlt
    by apply Rounding.signless_not_negative, heuristic_signless.
  split; [done|].
  destruct (is_nan (heuristic W a b)) eqn:Hnan; [by left|right].
  destruct (0 <=? heuristic W a b)%float eqn:Hle; [done|].
  apply Float64.not_leb_ltb in Hle; [congruence|done..].
Qed.

(** X4.  heuristic is symmetric: heuristic(a, b) and heuristic(b, a) are the
    same float64, NaN when one is. *)
Theorem heuristic_symmetric (a b : Hex) :
  heuristic W a b = heuristic W b a.
Proof.
  unfold heuristic.
  by rewrite (Rounding.Pow2_sub_swap (X W a)), (Rounding.Pow2_sub_swap (Y W a)).
Qed.

(** heuristic(c, c) is +0 for a cell with a finite projection and NaN
    otherwise: in each case whether it is below MaxFloat64. *)
Lemma heuristic_diag_low (c : Hex) :
  (heuristic W c c <? MaxFloat64)%float
  = is_finite (X W c) && is_finite (Y W c).
Proof.
  destruct (is_finite (X W c)) eqn:Fx, (is_finite (Y W c)) eqn:Fy; simpl.
  - by rewrite heuristic_diag.
  - rewrite FloatAxioms.ltb_spec. unfold heuristic, Pow2.
    rewrite add_spec, !mul_spec, (Rounding.sub_diag_nan (Y W c)) by done.
    by destruct (SF64mul _ _).
  - rewrite FloatAxioms.ltb_spec. unfold heuristic, Pow2.
    rewrite add_spec, !mul_spec, (Rounding.sub_diag_nan (X W c)) by done.
    done.
  - rewrite FloatAxioms.ltb_spec. unfold heuristic, Pow2.
    rewrite add_spec, !mul_spec, (Rounding.sub_diag_nan (X W c)) by done.
    done.
Qed.

(** ** Navigate from a cell to itself *)

Variable range : nat → gset Hex → list Hex.
Hypothesis range_perm : ∀ i s, range i s ≡ₚ elements s.

(** X5.  Navigate from a cell to itself reads no obstacle: whatever the
    obstacle list (the cell may be marked impassable in it), it returns the
    one-cell path when the projection of the cell is finite, and the no-path
    error when it is not. *)
Theorem Navigate_to_itself (c : Hex) (obstacles : list ContextualObstacle)
    (fuel : nat) :
  Navigate W range c c obstacles (S fuel)
  = if is_finite (X W c) && is_finite (Y W c)
    then Some (inl [c]) else Some (inr (noPath W c c)).
Proof.
  unfold Navigate. simpl.
  rewrite decide_False by set_solver.
  assert (range 0 {[c]} = [c]) as ->.
  { apply Permutation_singleton_r. by rewrite range_perm, elements_singleton. }
  unfold iteration, scan, scanStep, at0. simpl.
  rewrite lookup_singleton_eq. simpl. rewrite heuristic_diag_low.
  destruct (is_finite (X W c) && is_finite (Y W c)); simpl; [|done].
  rewrite decide_True by done.
  unfold reconstruct. simpl. by rewrite lookup_empty.
Qed.


(** ** The path that Navigate returns *)

Section Traced.
Variable start goal : Hex.
Variable obstacles : list ContextualObstacle.

Lemma walled_obstructed (tentative : float) (n : Hex) :
  walled W obstacles n = true →
  obstructed W tentative n obstacles = MaxFloat64.
Proof.
  unfold walled. induction obstacles as [|o rest IH]; simpl; [done|].
  destruct (occupies W o n); [|done]. by intros ->.
Qed.

Lemma traced_init : traced W obstacles start ∅ (init W start goal).
Proof.
  split; simpl; try set_solver.
  - intros n ->%elem_of_singleton. exists []. split; [|constructor].
    by constructor.
  - intros n. rewrite lookup_empty. by intros [? ?].
Qed.

Lemma track_expanded (prevs : gmap Hex Hex) (expanded : gset Hex)
    (n : Hex) (l : list Hex) :
  track W start prevs expanded n l → ∀ c, c ∈ l → c ∈ expanded.
Proof.
  induction 1 as [?|n c l _ Hc _ _ IH]; intros x Hx; [set_solver|].
  apply elem_of_cons in Hx as [->|Hx]; auto.
Qed.

Lemma track_mono (prevs : gmap Hex Hex) (expanded expanded' : gset Hex)
    (n : Hex) (l : list Hex) :
  expanded ⊆ expanded' →
  track W start prevs expanded n l → track W start prevs expanded' n l.
Proof.
  intros Hsub. induction 1 as [?|n c l ? ? ? _ IH]; [by constructor|].
  constructor; [done|set_solver|done|done].
Qed.

(** Recording a predecessor for a reference that has not been expanded
    leaves the tracks of the other references as they are. *)
Lemma track_record (prevs : gmap Hex Hex) (expanded : gset Hex)
    (n current m : Hex) (l : list Hex) :
  n ∉ expanded → n ≠ start →
  track W start prevs expanded m l → m ≠ n →
  track W start (<[n := current]> prevs) expanded m l.
Proof.
  intros Hn Hstart. induction 1 as [?|m c l ? Hc ? _ IH]; intros Hm.
  - constructor. by rewrite lookup_insert_ne.
  - constructor; [by rewrite lookup_insert_ne|done|done|].
    apply IH. congruence.
Qed.

Lemma track_follows (prevs : gmap Hex Hex) (expanded : gset Hex)
    (n : Hex) (l : list Hex) :
  track W start prevs expanded n l → follows prevs n l.
Proof. induction 1; by econstructor. Qed.

Lemma track_route (prevs : gmap Hex Hex) (expanded : gset Hex)
    (n : Hex) (l : list Hex) :
  track W start prevs expanded n l → route W start n (reverse (n :: l)).
Proof.
  induction 1 as [?|n c l _ _ Hn _ IH]; [done|].
  rewrite reverse_cons. destruct IH as (Hh & Hl & Hp). split_and!.
  - by destruct (reverse (c :: l)).
  - apply last_snoc.
  - by apply (linked_snoc W _ c).
Qed.

Lemma traced_settle (expanded : gset Hex) (st : search) (c : Hex) :
  traced W obstacles start expanded st →
  c ∈ open st → (at0 (guesses st) c <? MaxFloat64)%float = true →
  traced W obstacles start ({[c]} ∪ expanded) (settle W c st)
  ∧ key W start ∈ closed (settle W c st).
Proof.
  intros Ht Hc Hlow.
  pose proof (traced_open _ _ _ _ _ Ht c Hc) as Hfresh.
  assert (key W start ∈ closed (settle W c st)) as Hstart.
  { destruct (traced_start _ _ _ _ _ Ht) as [[Ho _]|?]; simpl; [|set_solver].
    assert (c = start) as -> by set_solver. set_solver. }
  split; [split|done]; simpl.
  - intros x [->%elem_of_singleton|Hx]%elem_of_union; [set_solver|].
    pose proof (traced_closed _ _ _ _ _ Ht x Hx). set_solver.
  - intros n [Hn Hne]%elem_of_difference.
    pose proof (traced_open _ _ _ _ _ Ht n Hn). set_solver.
  - by right.
  - intros n [Hn _]%elem_of_difference.
    destruct (traced_open_track _ _ _ _ _ Ht n Hn) as (l & Hl & Hnd).
    exists l. split; [|done]. eapply track_mono; [|done]. set_solver.
  - intros n [->%elem_of_singleton|Hn]%elem_of_union.
    + destruct (traced_open_track _ _ _ _ _ Ht c Hc) as (l & Hl & Hnd).
      exists l. split; [eapply track_mono; [|done]; set_solver|].
      constructor; [|done].
      intros Hin%(track_expanded _ _ _ _ Hl). done.
    + destruct (traced_expanded_track _ _ _ _ _ Ht n Hn) as (l & Hl & Hnd).
      exists l. split; [|done]. eapply track_mono; [|done]. set_solver.
  - intros n [Hn _]%elem_of_difference. by apply (traced_walled _ _ _ _ _ Ht).
  - intros x [->%elem_of_singleton|Hx]%elem_of_union.
    + destruct (decide (c = start)) as [?|Hne]; [by left|right].
      destruct (walled W obstacles c) eqn:Hw; [|done].
      pose proof (traced_walled _ _ _ _ _ Ht c Hc Hne Hw). congruence.
    + by apply (traced_passable _ _ _ _ _ Ht).
  - intros n Hn. destruct (decide (n = c)) as [->|?]; [set_solver|].
    destruct (traced_recorded _ _ _ _ _ Ht n Hn); set_solver.
Qed.

Lemma traced_visit (expanded : gset Hex) (st : search) (current n : Hex) :
  traced W obstacles start expanded st →
  key W start ∈ closed st → current ∈ expanded →
  n ∈ Neighbors W current →
  traced W obstacles start expanded (visit W goal obstacles current st n).
Proof.
  intros Ht Hstart Hcur Hn. unfold visit.
  case_decide as Hcl; [done|].
  set (tentative := tentativeCost W obstacles st current n).
  assert (n ∉ expanded) as Hfresh.
  { intros Hin. by apply Hcl, (traced_closed _ _ _ _ _ Ht). }
  assert (n ≠ start) as Hns by congruence.
  assert (∀ s, closed s = closed st → cameFrom s = cameFrom st →
               guesses s = guesses st → open s = {[n]} ∪ open st →
            traced W obstacles start expanded
              (record W goal current n tentative s)) as Hrec.
  { intros s Hc Hf Hg Ho.
    assert (∀ m l, track W start (cameFrom st) expanded m l → m ≠ n →
              track W start (<[n := current]> (cameFrom st)) expanded m l)
      as Hkeep by (intros m l Hl Hm; by apply track_record).
    split; simpl; rewrite ?Hc, ?Hf, ?Hg, ?Ho.
    - apply Ht.
    - intros m [->%elem_of_singleton|Hm]%elem_of_union; [done|].
      by apply (traced_open _ _ _ _ _ Ht).
    - by right.
    - intros m Hm. destruct (decide (m = n)) as [->|Hne].
      + destruct (traced_expanded_track _ _ _ _ _ Ht current Hcur)
          as (l & Hl & Hnd).
        exists (current :: l). split; [|done].
        constructor; [by rewrite lookup_insert_eq|done|done|].
        apply Hkeep; [done|]. congruence.
      + destruct (traced_open_track _ _ _ _ _ Ht m) as (l & Hl & Hnd);
          [set_solver|].
        exists l. split; [by apply Hkeep|done].
    - intros m Hm.
      destruct (traced_expanded_track _ _ _ _ _ Ht m Hm) as (l & Hl & Hnd).
      exists l. split; [|done]. apply Hkeep; [done|]. congruence.
    - intros m Hm Hms Hw. unfold at0. destruct (decide (m = n)) as [->|Hne].
      + rewrite lookup_insert_eq. simpl. unfold tentative, tentativeCost.
        rewrite walled_obstructed by done.
        apply Rounding.add_MaxFloat64, heuristic_signless.
      + rewrite lookup_insert_ne by done.
        apply (traced_walled _ _ _ _ _ Ht); [set_solver|done..].
    - apply Ht.
    - intros m Hm. destruct (decide (m = n)) as [->|Hne]; [set_solver|].
      rewrite lookup_insert_ne in Hm by done.
      destruct (traced_recorded _ _ _ _ _ Ht m Hm); set_solver. }
  case_decide as Hopen.
  - case_match; [done|]. apply Hrec; [done..|set_solver].
  - by apply Hrec.
Qed.

Lemma traced_expand (expanded : gset Hex) (st : search) (c : Hex) :
  traced W obstacles start expanded st →
  c ∈ open st → (at0 (guesses st) c <? MaxFloat64)%float = true →
  traced W obstacles start ({[c]} ∪ expanded)
    (expand W goal obstacles c st).
Proof.
  intros Ht Hc Hlow.
  destruct (traced_settle expanded st c Ht Hc Hlow) as [Ht' Hstart].
  unfold expand. revert Ht' Hstart. generalize (settle W c st).
  assert (Neighbors W c ⊆ Neighbors W c) as Hsub by done. revert Hsub.
  generalize (Neighbors W c) at 1 3.
  intros ns. induction ns as [|n ns IH]; intros Hsub s Hs Hstart; simpl;
    [done|].
  apply IH; [set_solver| |by rewrite visit_closed].
  apply traced_visit; [done|done|set_solver|set_solver].
Qed.

(** Whatever the loop returns as a path is a route from start to goal that
    passes once through each of its cells, none of which is walled, the
    start apart. *)
Lemma loop_traced (rfuel fuel i : nat) (expanded : gset Hex)
    (st : search) (p : list Hex) :
  traced W obstacles start expanded st →
  loop W range start goal obstacles rfuel fuel i st = Some (inl p) →
  route W start goal p ∧ NoDup p
  ∧ ∀ c, c ∈ p → c = start ∨ walled W obstacles c = false.
Proof.
  revert i expanded st.
  induction fuel as [|fuel IH]; intros i expanded st Ht; simpl; [done|].
  case_decide; [done|]. unfold iteration.
  destruct (scan (guesses st) (range i (open st))).1 as [c|] eqn:Hscan;
    [|done].
  apply scan_selected in Hscan as [Hc Hlow].
  rewrite range_perm, elem_of_elements in Hc.
  case_decide as Hgoal.
  - subst c.
    destruct (reconstruct rfuel (cameFrom st) goal) as [q|] eqn:Hq; [|done].
    intros [= <-].
    apply reconstruct_follows in Hq as (l' & Hl' & _ & ->).
    destruct (traced_open_track _ _ _ _ _ Ht goal Hc) as (l & Hl & Hnd).
    rewrite (follows_unique _ _ _ _ Hl' (track_follows _ _ _ _ Hl)).
    pose proof (track_expanded _ _ _ _ Hl) as Hexp.
    split_and!.
    + by eapply track_route.
    + rewrite reverse_Permutation. constructor; [|done].
      intros Hin%Hexp. by apply (traced_open _ _ _ _ _ Ht goal).
    + intros c. rewrite elem_of_reverse.
      intros [->|Hin]%elem_of_cons.
      * destruct (decide (goal = start)) as [?|Hne]; [by left|right].
        destruct (walled W obstacles goal) eqn:Hw; [|done].
        pose proof (traced_walled _ _ _ _ _ Ht goal Hc Hne Hw). congruence.
      * by apply (traced_passable _ _ _ _ _ Ht), Hexp.
  - apply (IH _ ({[c]} ∪ expanded)). by apply traced_expand.
Qed.

(** X6.  Whenever Navigate returns a path, the path is a route: it begins at
    start, ends at goal, each of its cells is a neighbor of the one before,
    and no cell occurs twice in it. *)
Theorem Navigate_returns_route (fuel : nat) (p : list Hex) :
  Navigate W range start goal obstacles fuel = Some (inl p) →
  route W start goal p ∧ NoDup p.
Proof.
  intros Hp. apply (loop_traced _ _ _ _ _ _ traced_init) in Hp.
  split; apply Hp.
Qed.

(** X7.  Navigate avoids impassable hexes: no cell of a path that it
    returns, the start apart, is at coordinates whose first entry in the
    obstacle list has an infinite cost. *)
Theorem Navigate_avoids_walls (fuel : nat) (p : list Hex) (c : Hex) :
  Navigate W range start goal obstacles fuel = Some (inl p) →
  c ∈ p → c ≠ start → walled W obstacles c = false.
Proof.
  intros Hp Hc Hne.
  apply (loop_traced _ _ _ _ _ _ traced_init) in Hp as (_ & _ & Hp).
  by destruct (Hp c Hc).
Qed.


(** ** No path *)

Lemma loop_error (rfuel fuel i : nat) (st : search) (e : error) :
  loop W range start goal obstacles rfuel fuel i st = Some (inr e) →
  e = noPath W start goal.
Proof.
  revert i st. induction fuel as [|fuel IH]; intros i st; simpl; [done|].
  case_decide; [congruence|].
  destruct (iteration W goal obstacles (range i (open st)) st);
    [|congruence|apply IH].
  by destruct (reconstruct rfuel (cameFrom st) current).
Qed.

Lemma linked_region (region : gset Hex) (p : list Hex) (a b : Hex) :
  closedUnder W region → linked W p →
  head p = Some a → last p = Some b → a ∈ region → b ∈ region.
Proof.
  intros Hcl. revert a. induction p as [|x [|y q] IH]; intros a Hp Ha Hb Hin;
    [done| |].
  - simpl in *. congruence.
  - destruct Hp as [Hxy Hq]. injection Ha as ->.
    rewrite last_cons_cons in Hb.
    apply (IH y); [done|done|done|]. by apply (Hcl a).
Qed.

(** X8.  A goal outside a finite set of cells that holds the start and the
    neighbors of each of its cells (one cell per coordinate pair) is not
    reached: Navigate returns the error that names the coordinates of start
    and goal. *)
Theorem Navigate_goal_outside (region : gset Hex) (fuel : nat) :
  canonical W → start ∈ region → closedUnder W region → goal ∉ region →
  (size region < fuel)%nat →
  Navigate W range start goal obstacles fuel
  = Some (inr (noPath W start goal)).
Proof.
  intros Hcan Hstart Hcl Hgoal Hfuel.
  assert (is_Some (Navigate W range start goal obstacles fuel)) as [r Hr]
    by (by eapply Navigate_returns).
  rewrite Hr. destruct r as [p|e].
  - apply (loop_traced _ _ _ _ _ _ traced_init) in Hr as ((Hh & Hl & Hp) & _).
    destruct Hgoal. by apply (linked_region region p start goal).
  - by apply loop_error in Hr as ->.
Qed.

Lemma visit_open_sub (st : search) (current n : Hex) :
  open (visit W goal obstacles current st n) ⊆ {[n]} ∪ open st.
Proof.
  unfold visit. repeat (case_decide || case_match); simpl; set_solver.
Qed.

Lemma expand_open_sub (st : search) (c : Hex) :
  open (expand W goal obstacles c st)
  ⊆ list_to_set (Neighbors W c) ∪ open st ∖ {[c]}.
Proof.
  unfold expand.
  change (open st ∖ {[c]}) with (open (settle W c st)).
  generalize (settle W c st). intros s.
  induction (Neighbors W c) as [|n ns IH] using rev_ind; [set_solver|].
  rewrite foldl_app. simpl.
  pose proof (visit_open_sub (foldl (visit W goal obstacles c) s ns) c n).
  rewrite list_to_set_app_L. set_solver.
Qed.

(** X9.  A start whose neighbors are all impassable (the first entry of the
    obstacle list at the coordinates of each has an infinite cost) has no
    path to any other cell: Navigate returns the error after at most two
    turns of its loop. *)
Theorem Navigate_walled_in (fuel : nat) :
  start ≠ goal →
  (∀ n, n ∈ Neighbors W start → walled W obstacles n = true) →
  Navigate W range start goal obstacles (S (S fuel))
  = Some (inr (noPath W start goal)).
Proof.
  intros Hne Hwalls. unfold Navigate.
  cbn [loop]. rewrite decide_False by (simpl; set_solver).
  unfold iteration at 1.
  destruct (scan (guesses (init W start goal))
              (range 0 (open (init W start goal)))).1 as [c|] eqn:Hscan;
    [|done].
  apply scan_selected in Hscan as [Hc Hlow].
  rewrite range_perm, elem_of_elements in Hc.
  assert (c = start) as -> by (simpl in Hc; set_solver).
  rewrite decide_False by done.
  pose proof (traced_expand ∅ _ start traced_init Hc Hlow) as Ht.
  pose proof (expand_open_sub (init W start goal) start) as Hsub.
  case_decide; [done|].
  unfold iteration.
  assert ((scan (guesses (expand W goal obstacles start (init W start goal)))
             (range 1 (open (expand W goal obstacles start
                               (init W start goal))))).1 = None) as ->; [|done].
  apply scan_None, Forall_forall. intros n Hn.
  rewrite range_perm, elem_of_elements in Hn.
  pose proof (traced_open _ _ _ _ _ Ht n Hn) as Hfresh.
  apply (traced_walled _ _ _ _ _ Ht); [done|set_solver|].
  apply Hwalls. apply Hsub in Hn. simpl in Hn. set_solver.
Qed.

(** ** What the loop keeps from turn to turn *)

Lemma turns_step (k : nat) (st' : search) :
  turns W range start goal obstacles (S k) = Some st' →
  ∃ st c, turns W range start goal obstacles k = Some st
          ∧ st' = expand W goal obstacles c st.
Proof.
  clear range_perm.
  simpl. destruct (turns W range start goal obstacles k) as [st|]; [|done].
  simpl. case_decide; [done|]. unfold iteration.
  destruct (scan (guesses st) (range k (open st))).1 as [c|]; [|done].
  case_decide; [done|]. intros [= <-]. by exists st, c.
Qed.

Lemma visit_settled (st : search) (current n m : Hex) :
  key W m ∈ closed st →
  cameFrom (visit W goal obstacles current st n) !! m = cameFrom st !! m
  ∧ costs (visit W goal obstacles current st n) !! m = costs st !! m
  ∧ guesses (visit W goal obstacles current st n) !! m = guesses st !! m.
Proof.
  clear range_perm.
  intros Hm. unfold visit. case_decide as Hn; [done|].
  assert (n ≠ m) by congruence.
  repeat (case_decide || case_match); simpl; by rewrite ?lookup_insert_ne.
Qed.

Lemma expand_settled (st : search) (c m : Hex) :
  key W m ∈ closed st →
  cameFrom (expand W goal obstacles c st) !! m = cameFrom st !! m
  ∧ costs (expand W goal obstacles c st) !! m = costs st !! m
  ∧ guesses (expand W goal obstacles c st) !! m = guesses st !! m.
Proof.
  clear range_perm.
  intros Hm. unfold expand.
  change (cameFrom st) with (cameFrom (settle W c st)).
  change (costs st) with (costs (settle W c st)).
  change (guesses st) with (guesses (settle W c st)).
  assert (key W m ∈ closed (settle W c st)) as Hm' by (simpl; set_solver).
  revert Hm'. generalize (settle W c st). intros s Hs.
  induction (Neighbors W c) as [|n ns IH] using rev_ind; [done|].
  rewrite foldl_app. simpl.
  destruct IH as (IH1 & IH2 & IH3). rewrite <- IH1, <- IH2, <- IH3.
  apply visit_settled. by rewrite visits_closed.
Qed.

(** X10.  Once the coordinates of a cell are settled, its recorded cost, its
    priority and its predecessor never change again, and its coordinates
    stay settled: they are the same at the start of every later turn of the
    loop. *)
Theorem settled_frozen (k j : nat) (st st' : search) (n : Hex) :
  turns W range start goal obstacles k = Some st →
  turns W range start goal obstacles (k + j) = Some st' →
  key W n ∈ closed st →
  key W n ∈ closed st'
  ∧ costs st' !! n = costs st !! n
  ∧ guesses st' !! n = guesses st !! n
  ∧ cameFrom st' !! n = cameFrom st !! n.
Proof.
  clear range_perm.
  intros Hk. revert st'. induction j as [|j IH]; intros st' Hj Hn.
  - replace (k + 0)%nat with k in Hj by lia. by simplify_eq.
  - replace (k + S j)%nat with (S (k + j)) in Hj by lia.
    apply turns_step in Hj as (st1 & c & Hst1 & ->).
    destruct (IH st1 Hst1 Hn) as (Hcl & <- & <- & <-).
    destruct (expand_settled st1 c n Hcl) as (? & ? & ?).
    split_and!; [|done..]. rewrite expand_closed. set_solver.
Qed.

Lemma visit_guesses (st : search) (current n : Hex) :
  (∀ m, guesses st !! m
        = (λ c, (c + heuristic W m goal)%float) <$> costs st !! m) →
  (∀ m, m ∈ open st → is_Some (costs st !! m)) →
  (∀ m, guesses (visit W goal obstacles current st n) !! m
        = (λ c, (c + heuristic W m goal)%float)
          <$> costs (visit W goal obstacles current st n) !! m)
  ∧ ∀ m, m ∈ open (visit W goal obstacles current st n) →
         is_Some (costs (visit W goal obstacles current st n) !! m).
Proof.
  clear range_perm.
  intros Hg Ho. unfold visit.
  repeat (case_decide || case_match); try done; simpl; split; intros m.
  - destruct (decide (m = n)) as [->|?];
      [by rewrite !lookup_insert_eq|by rewrite !lookup_insert_ne].
  - destruct (decide (m = n)) as [->|?];
      [by rewrite lookup_insert_eq|rewrite lookup_insert_ne by done; auto].
  - destruct (decide (m = n)) as [->|?];
      [by rewrite !lookup_insert_eq|by rewrite !lookup_insert_ne].
  - destruct (decide (m = n)) as [->|?];
      [by rewrite lookup_insert_eq|rewrite lookup_insert_ne by done].
    intros Hm. apply Ho. set_solver.
Qed.

(** X11.  At the start of every turn of the loop, the priority recorded for
    a cell is its recorded cost plus heuristic(cell, goal), as a float64
    (also for the start, whose priority is set to the heuristic alone and
    whose cost is 0); a cell has a priority exactly when it has a cost, and
    every cell of the frontier has both, so that the scan for the lowest
    priority never reads a missing entry. *)
Theorem priority_is_cost_plus_heuristic (k : nat) (st : search) :
  turns W range start goal obstacles k = Some st →
  (∀ n, guesses st !! n
        = (λ c, (c + heuristic W n goal)%float) <$> costs st !! n)
  ∧ ∀ n, n ∈ open st → is_Some (costs st !! n) ∧ is_Some (guesses st !! n).
Proof.
  clear range_perm. intros Hk.
  enough ((∀ n, guesses st !! n
             = (λ c, (c + heuristic W n goal)%float) <$> costs st !! n)
          ∧ ∀ n, n ∈ open st → is_Some (costs st !! n)) as [Hg Ho].
  { split; [done|]. intros n Hn. split; [by apply Ho|].
    rewrite Hg. apply fmap_is_Some. by apply Ho. }
  revert st Hk. induction k as [|k IH]; intros st Hk.
  - injection Hk as <-. simpl. split; intros n.
    + destruct (decide (n = start)) as [->|?].
      * rewrite !lookup_singleton_eq. simpl.
        by rewrite Rounding.add_zero_signless by apply heuristic_signless.
      * by rewrite !lookup_singleton_ne.
    + intros ->%elem_of_singleton. by rewrite lookup_singleton_eq.
  - apply turns_step in Hk as (st0 & c & Hst0 & ->).
    destruct (IH st0 Hst0) as [Hg Ho]. unfold expand.
    assert ((∀ n, guesses (settle W c st0) !! n
               = (λ c, (c + heuristic W n goal)%float)
                 <$> costs (settle W c st0) !! n)
            ∧ ∀ n, n ∈ open (settle W c st0) →
                   is_Some (costs (settle W c st0) !! n)) as Hs.
    { split; [done|]. simpl. intros n Hn. apply Ho. set_solver. }
    revert Hs. generalize (settle W c st0). intros s Hs.
    induction (Neighbors W c) as [|n ns IHn] using rev_ind; [done|].
    rewrite foldl_app. simpl. destruct IHn. by apply visit_guesses.
Qed.


(** ** The predecessor links *)

Lemma turns_traced (k : nat) (st : search) :
  turns W range start goal obstacles k = Some st →
  ∃ expanded, traced W obstacles start expanded st.
Proof.
  revert st. induction k as [|k IH]; intros st Hk.
  - injection Hk as <-. exists ∅. apply traced_init.
  - simpl in Hk.
    destruct (turns W range start goal obstacles k) as [st0|]; [|done].
    simpl in Hk. case_decide; [done|]. unfold iteration in Hk.
    destruct (scan (guesses st0) (range k (open st0))).1 as [c|] eqn:Hscan;
      [|done].
    case_decide; [done|]. injection Hk as <-.
    destruct (IH st0 eq_refl) as [expanded Ht].
    apply scan_selected in Hscan as [Hc Hlow].
    rewrite range_perm, elem_of_elements in Hc.
    exists ({[c]} ∪ expanded). by apply traced_expand.
Qed.

Lemma track_end (prevs : gmap Hex Hex) (expanded : gset Hex)
    (n : Hex) (l : list Hex) :
  track W start prevs expanded n l → prevs !! start = None.
Proof. by induction 1. Qed.

(** X12.  At the start of every turn of the loop the predecessor links form
    a tree rooted at start: start has no predecessor, and from every cell
    that has one, following the links passes through no cell twice and ends
    at start, each cell on the way being a neighbor of its predecessor. *)
Theorem predecessors_lead_to_start (k : nat) (st : search) :
  turns W range start goal obstacles k = Some st →
  cameFrom st !! start = None
  ∧ ∀ n, is_Some (cameFrom st !! n) →
      ∃ l, follows (cameFrom st) n l ∧ NoDup (n :: l)
           ∧ route W start n (reverse (n :: l)).
Proof.
  intros [expanded Ht]%turns_traced.
  assert (∀ n, is_Some (cameFrom st !! n) →
            ∃ l, track W start (cameFrom st) expanded n l ∧ NoDup (n :: l))
    as Htrack.
  { intros n [Hn|Hn]%(traced_recorded _ _ _ _ _ Ht).
    - destruct (traced_open_track _ _ _ _ _ Ht n Hn) as (l & Hl & Hnd).
      exists l. split; [done|]. constructor; [|done].
      intros Hin%(track_expanded _ _ _ _ Hl).
      by apply (traced_open _ _ _ _ _ Ht n).
    - by apply (traced_expanded_track _ _ _ _ _ Ht). }
  split.
  - destruct (cameFrom st !! start) as [c|] eqn:Hc; [|done].
    destruct (Htrack start) as (l & Hl & _); [by rewrite Hc|].
    apply track_end in Hl. congruence.
  - intros n (l & Hl & Hnd)%Htrack. exists l. split_and!; [|done|].
    + by eapply track_follows.
    + by eapply track_route.
Qed.

(** ** Termination on any cell model *)

Lemma confined_init (region : gset Hex) :
  start ∈ region → confined W region ∅ (init W start goal).
Proof. intros Hstart. split_and!; simpl; set_solver. Qed.

Lemma confined_expand (region expanded : gset Hex) (st : search) (c : Hex) :
  closedUnder W region →
  confined W region expanded st → c ∈ open st →
  confined W region ({[c]} ∪ expanded) (expand W goal obstacles c st).
Proof.
  intros Hcl (He & Ho & Hc) Hin. split_and!.
  - set_solver.
  - intros n Hn%expand_open_sub.
    apply elem_of_union in Hn as [Hn%elem_of_list_to_set|Hn]; [|set_solver].
    apply (Hcl c); [by apply Ho|done].
  - rewrite expand_closed, Hc. set_solver.
Qed.

Lemma turns_selected (k : nat) (st' : search) :
  turns W range start goal obstacles (S k) = Some st' →
  ∃ st c, turns W range start goal obstacles k = Some st
          ∧ c ∈ open st ∧ (at0 (guesses st) c <? MaxFloat64)%float = true
          ∧ st' = expand W goal obstacles c st.
Proof.
  simpl. destruct (turns W range start goal obstacles k) as [st|]; [|done].
  simpl. case_decide; [done|]. unfold iteration.
  destruct (scan (guesses st) (range k (open st))).1 as [c|] eqn:Hscan;
    [|done].
  apply scan_selected in Hscan as [Hc Hlow].
  rewrite range_perm, elem_of_elements in Hc.
  case_decide; [done|]. intros [= <-]. by exists st, c.
Qed.

(** From one turn to a later one: the references expanded in between are
    as many as the turns, all cells of the region, and none of them is in
    the frontier. *)
Lemma turns_confined (region : gset Hex) (k j : nat) (expanded : gset Hex)
    (st st' : search) :
  closedUnder W region →
  turns W range start goal obstacles k = Some st →
  traced W obstacles start expanded st → confined W region expanded st →
  turns W range start goal obstacles (k + j) = Some st' →
  ∃ expanded', expanded ⊆ expanded'
    ∧ size expanded' = (size expanded + j)%nat
    ∧ traced W obstacles start expanded' st'
    ∧ confined W region expanded' st'.
Proof.
  intros Hcl Hk Ht Hc. revert st'. induction j as [|j IH]; intros st' Hj.
  - replace (k + 0)%nat with k in Hj by lia. simplify_eq.
    exists expanded. split_and!; [done|lia|done|done].
  - replace (k + S j)%nat with (S (k + j)) in Hj by lia.
    apply turns_selected in Hj as (st1 & c & Hst1 & Hin & Hlow & ->).
    destruct (IH st1 Hst1) as (e1 & Hsub & Hsize & Ht1 & Hc1).
    pose proof (traced_open _ _ _ _ _ Ht1 c Hin) as Hfresh.
    exists ({[c]} ∪ e1). split_and!.
    + set_solver.
    + rewrite size_union, size_singleton by set_solver. lia.
    + by apply traced_expand.
    + by apply confined_expand.
Qed.

Lemma turns_expanded (region : gset Hex) (k : nat) (st : search) :
  start ∈ region → closedUnder W region →
  turns W range start goal obstacles k = Some st →
  ∃ expanded, size expanded = k
    ∧ traced W obstacles start expanded st
    ∧ confined W region expanded st.
Proof.
  intros Hstart Hcl Hk.
  destruct (turns_confined region 0 k ∅ (init W start goal) st Hcl eq_refl
              traced_init (confined_init region Hstart) Hk)
    as (expanded & _ & Hsize & Ht & Hc).
  exists expanded. by rewrite size_empty in Hsize.
Qed.

(** The loop returns on a finite region, whatever the cell model: a
    reference that has been expanded does not come back to the frontier,
    and reconstruct follows links through expanded references only. *)
Lemma loop_returns (region : gset Hex) (rfuel fuel i : nat)
    (expanded : gset Hex) (st : search) :
  closedUnder W region →
  traced W obstacles start expanded st → confined W region expanded st →
  (size region < rfuel)%nat →
  (size region - size expanded < fuel)%nat →
  is_Some (loop W range start goal obstacles rfuel fuel i st).
Proof.
  intros Hcl. revert i expanded st.
  induction fuel as [|fuel IH]; intros i expanded st Ht Hc Hr Hf; [lia|].
  simpl. case_decide; [done|]. unfold iteration.
  destruct (scan (guesses st) (range i (open st))).1 as [c|] eqn:Hscan;
    [|done].
  apply scan_selected in Hscan as [Hin Hlow].
  rewrite range_perm, elem_of_elements in Hin.
  pose proof (traced_open _ _ _ _ _ Ht c Hin) as Hfresh.
  case_decide as Hgoal.
  - subst c.
    destruct (traced_open_track _ _ _ _ _ Ht goal Hin) as (l & Hl & Hnd).
    assert (length l ≤ size region)%nat as Hlen.
    { rewrite <- (size_list_to_set (C:=gset Hex) l) by done.
      apply subseteq_size. intros x Hx%elem_of_list_to_set.
      apply (proj1 Hc). by apply (track_expanded _ _ _ _ Hl). }
    unfold reconstruct.
    rewrite (follows_follow _ _ _ (track_follows _ _ _ _ Hl)) by lia. done.
  - apply (IH _ ({[c]} ∪ expanded));
      [by apply traced_expand|by apply confined_expand|done|].
    destruct Hc as (He & Ho & _).
    assert (size ({[c]} ∪ expanded) ≤ size region)%nat as Hle
      by (apply subseteq_size; set_solver).
    rewrite size_union, size_singleton in * by set_solver. lia.
Qed.

(** C8 (amended).  On a finite set of cell references that holds the start
    and the neighbors of each of its cells, Navigate terminates, whatever
    the cell model.  Each turn of the loop that neither returns nor breaks
    takes one reference out of the frontier, for good, and puts its
    coordinates in the settled set, which does not shrink.  After k turns,
    k distinct references of the region have been taken out, none of them
    is in the frontier, and the settled set is the set of their
    coordinates: the number of turns does not exceed the number of cell
    references.  Navigate runs through these turns, and has returned
    whenever it is given more fuel than there are cell references.  When
    the cell model has one reference per coordinate pair, the settled set
    strictly grows at each turn: after k turns it has k elements. *)
Theorem Navigate_terminates (region : gset Hex) :
  start ∈ region → closedUnder W region →
  (∀ k st st',
     turns W range start goal obstacles k = Some st →
     turns W range start goal obstacles (S k) = Some st' →
     ∃ c, c ∈ open st
          ∧ closed st' = {[key W c]} ∪ closed st
          ∧ closed st ⊆ closed st'
          ∧ ∀ j st'',
              turns W range start goal obstacles (S k + j) = Some st'' →
              c ∉ open st'')
  ∧ (∀ k st,
       turns W range start goal obstacles k = Some st →
       ∃ expanded : gset Hex,
         size expanded = k ∧ expanded ⊆ region
         ∧ open st ⊆ region ∖ expanded
         ∧ closed st = set_map (key W) expanded)
  ∧ (∀ k st,
       turns W range start goal obstacles k = Some st →
       (k ≤ size region)%nat ∧ (open st ≠ ∅ → (k < size region)%nat))
  ∧ turns W range start goal obstacles (S (size region)) = None
  ∧ (∀ k st fuel,
       turns W range start goal obstacles k = Some st →
       Navigate W range start goal obstacles (k + fuel)
       = loop W range start goal obstacles (k + fuel) fuel k st)
  ∧ (∀ fuel, (size region < fuel)%nat →
       is_Some (Navigate W range start goal obstacles fuel))
  ∧ (canonical W →
     (∀ k st,
        turns W range start goal obstacles k = Some st →
        size (closed st) = k)
     ∧ ∀ k st st',
         turns W range start goal obstacles k = Some st →
         turns W range start goal obstacles (S k) = Some st' →
         closed st ⊂ closed st').
Proof.
  intros Hstart Hcl.
  assert (∀ k st,
       turns W range start goal obstacles k = Some st →
       ∃ expanded : gset Hex,
         size expanded = k ∧ expanded ⊆ region
         ∧ open st ⊆ region ∖ expanded
         ∧ closed st = set_map (key W) expanded) as Hexp.
  { intros k st Hk.
    destruct (turns_expanded region k st Hstart Hcl Hk)
      as (expanded & Hsize & Ht & He & Ho & Hc).
    exists expanded. split_and!; [done..| |done].
    intros n Hn. apply elem_of_difference. split; [by apply Ho|].
    by apply (traced_open _ _ _ _ _ Ht). }
  assert (∀ k st,
       turns W range start goal obstacles k = Some st →
       (k ≤ size region)%nat ∧ (open st ≠ ∅ → (k < size region)%nat))
    as Hbound.
  { intros k st (expanded & <- & He & Ho & _)%Hexp. split.
    - by apply subseteq_size.
    - intros [c Hc%Ho]%set_choose_L.
      assert (size ({[c]} ∪ expanded) ≤ size region)%nat as Hle
        by (apply subseteq_size; set_solver).
      rewrite size_union, size_singleton in Hle by set_solver. lia. }
  split_and!; [|done|done| | | |].
  - intros k st st' Hk HSk.
    destruct (turns_selected k st' HSk) as (st0 & c & Hst0 & Hin & Hlow & ->).
    assert (st0 = st) as -> by congruence. exists c. split_and!; [done|apply expand_closed| |].
    + rewrite expand_closed. set_solver.
    + intros j st'' Hj.
      destruct (turns_expanded region k st Hstart Hcl Hk)
        as (expanded & _ & Ht & Hc).
      destruct (turns_confined region (S k) j ({[c]} ∪ expanded)
                  (expand W goal obstacles c st) st'' Hcl HSk
                  (traced_expand _ _ _ Ht Hin Hlow)
                  (confined_expand _ _ _ _ Hcl Hc Hin) Hj)
        as (expanded' & Hsub & _ & Ht' & _).
      intros Hopen%(traced_open _ _ _ _ _ Ht'). set_solver.
  - destruct (turns W range start goal obstacles (S (size region))) as [st|]
      eqn:E; [|done].
    apply Hbound in E. lia.
  - intros k st fuel Hk. by apply loop_turns.
  - intros fuel Hfuel.
    apply (loop_returns region _ _ _ ∅);
      [done|apply traced_init|by apply confined_init|done|].
    rewrite size_empty. lia.
  - intros Hcan.
    pose proof (sound_turns W range range_perm region start goal obstacles
                  Hcan Hstart Hcl) as Hsound.
    split; [intros k st Hk; by destruct (Hsound k st Hk)|].
    intros k st st' Hk HSk.
    destruct (Hsound k st Hk) as [_ Hsize].
    destruct (Hsound (S k) st' HSk) as [_ Hsize'].
    destruct (turns_selected k st' HSk) as (st0 & c & Hst0 & _ & _ & ->).
    assert (st0 = st) as -> by congruence.
    rewrite expand_closed in *. split.
    + set_solver.
    + intros Hsub%subseteq_size. lia.
Qed.

(** ** An impassable goal *)

Lemma walled_first (pre post : list ContextualObstacle)
    (o : ContextualObstacle) (n : Hex) :
  Forall (λ p, occupies W p n = false) pre →
  occupies W o n = true →
  walled W (pre ++ o :: post) n
  = (ContextualObstacle.Cost o =? Inf)%float.
Proof.
  intros Hpre Ho. unfold walled.
  induction Hpre as [|p pre Hp _ IH]; simpl; [by rewrite Ho|].
  by rewrite Hp.
Qed.

(** C4 (amended).  When the first entry of the obstacle list at the
    coordinates of the goal has an infinite multiplier, and the goal is a
    cell other than the start, Navigate never returns a path, and on a
    finite set of cells that holds the start and the neighbors of each of
    its cells it returns the no-path error, whatever the cell model: the
    cost of a step onto the goal is MaxFloat64, a finite float below +Inf,
    and a guess of MaxFloat64 or more is never selected. *)
Theorem impassable_goal (region : gset Hex)
    (pre post : list ContextualObstacle) (o : ContextualObstacle) :
  start ∈ region → closedUnder W region →
  start ≠ goal →
  obstacles = pre ++ o :: post →
  Forall (λ p, occupies W p goal = false) pre →
  occupies W o goal = true →
  (ContextualObstacle.Cost o =? Inf)%float = true →
  (∀ fuel, (size region < fuel)%nat →
     Navigate W range start goal obstacles fuel
     = Some (inr (noPath W start goal)))
  ∧ (∀ fuel p,
       Navigate W range start goal obstacles fuel ≠ Some (inl p))
  ∧ (∀ st current,
       tentativeCost W obstacles st current goal = MaxFloat64)
  ∧ is_finite MaxFloat64 = true
  ∧ (MaxFloat64 <? Inf)%float = true.
Proof.
  intros Hstart Hcl Hne Hobs Hpre Ho Hinf.
  assert (walled W obstacles goal = true) as Hwall
    by (by rewrite Hobs, (walled_first pre post o goal Hpre Ho)).
  assert (∀ fuel p,
       Navigate W range start goal obstacles fuel ≠ Some (inl p)) as Hnone.
  { intros fuel p Hp.
    apply (loop_traced _ _ _ _ _ _ traced_init) in Hp
      as ((_ & Hlast & _) & _ & Hp).
    destruct (Hp goal) as [?|Hfree]; [|done|congruence].
    by apply last_Some_elem_of. }
  split_and!; [|done| |done|done].
  - intros fuel Hfuel.
    assert (is_Some (Navigate W range start goal obstacles fuel)) as [r Hr].
    { apply (loop_returns region _ _ _ ∅);
        [done|apply traced_init|by apply confined_init|done|].
      rewrite size_empty. lia. }
    rewrite Hr. destruct r as [p|e]; [by apply Hnone in Hr|].
    by apply loop_error in Hr as ->.
  - intros st current. unfold tentativeCost. by apply walled_obstructed.
Qed.

End Traced.


(** ** The obstacle list *)

Section Obstacles.
Variable start goal : Hex.

Lemma occupies_coordinates (o : ContextualObstacle) (n : Hex) :
  occupies W o n = true ↔ coordinates o = key W n.
Proof.
  unfold occupies, coordinates, key.
  rewrite andb_true_iff, !Z.eqb_eq.
  split; [by intros [-> ->]|]. intros [= -> ->]. done.
Qed.

(** Navigate reads the obstacle list through the loop over obstacles
    only. *)
Lemma loop_obstructed (obs1 obs2 : list ContextualObstacle)
    (rfuel fuel i : nat) (st : search) :
  (∀ t n, obstructed W t n obs1 = obstructed W t n obs2) →
  loop W range start goal obs1 rfuel fuel i st
  = loop W range start goal obs2 rfuel fuel i st.
Proof.
  intros Hext.
  assert (∀ c s n, visit W goal obs1 c s n = visit W goal obs2 c s n)
    as Hvisit.
  { intros c s n. unfold visit, tentativeCost. by rewrite Hext. }
  assert (∀ c s, expand W goal obs1 c s = expand W goal obs2 c s) as Hexp.
  { intros c s. unfold expand. generalize (settle W c s).
    induction (Neighbors W c) as [|n ns IH]; intros s'; simpl; [done|].
    by rewrite Hvisit, IH. }
  revert i st. induction fuel as [|fuel IH]; intros i st; simpl; [done|].
  case_decide; [done|]. unfold iteration.
  destruct (scan (guesses st) (range i (open st))).1; [|done].
  case_decide; [done|]. by rewrite Hexp, IH.
Qed.

Lemma obstructed_Permutation (obs1 obs2 : list ContextualObstacle)
    (t : float) (n : Hex) :
  obs1 ≡ₚ obs2 → NoDup (coordinates <$> obs1) →
  obstructed W t n obs1 = obstructed W t n obs2.
Proof.
  induction 1 as [|o l l' Hl IH|a b l|l l' l'' Hl IH Hl' IH']; intros Hnd.
  - done.
  - simpl. destruct (occupies W o n); [done|].
    apply IH. by apply NoDup_cons in Hnd as [_ ?].
  - simpl. destruct (occupies W a n) eqn:Ha, (occupies W b n) eqn:Hb;
      try done.
    apply occupies_coordinates in Ha, Hb.
    rewrite !fmap_cons in Hnd. apply NoDup_cons in Hnd as [Hnd _].
    destruct Hnd. rewrite Hb, <- Ha. by left.
  - rewrite IH by done. apply IH'. by rewrite <- Hl.
Qed.

(** X13.  The order of the obstacle list matters only among entries with the
    same coordinates: when no two entries of the list share a coordinate
    pair, Navigate returns the same result for every reordering of it. *)
Theorem obstacle_order_irrelevant (obs1 obs2 : list ContextualObstacle)
    (fuel : nat) :
  obs1 ≡ₚ obs2 → NoDup (coordinates <$> obs1) →
  Navigate W range start goal obs1 fuel
  = Navigate W range start goal obs2 fuel.
Proof.
  intros Hp Hnd. apply loop_obstructed. intros t n.
  by apply obstructed_Permutation.
Qed.

Lemma obstructed_unit (obstacles : list ContextualObstacle)
    (t : float) (n : Hex) :
  Forall (λ o, ContextualObstacle.Cost o = 1%float) obstacles →
  obstructed W t n obstacles = t.
Proof.
  induction 1 as [|o l Ho _ IH]; simpl; [done|].
  destruct (occupies W o n); [|done].
  rewrite Ho. change (1 =? Inf)%float with false.
  apply Rounding.mul_one.
Qed.

(** X14.  Entries with a cost of 1 change nothing: Navigate with an obstacle
    list all of whose multipliers are 1 returns what it returns with no
    obstacle at all, since tentative * 1 is tentative for every float64. *)
Theorem unit_obstacles_ignored (obstacles : list ContextualObstacle)
    (fuel : nat) :
  Forall (λ o, ContextualObstacle.Cost o = 1%float) obstacles →
  Navigate W range start goal obstacles fuel
  = Navigate W range start goal [] fuel.
Proof.
  intros Hunit. apply loop_obstructed. intros t n.
  by apply obstructed_unit.
Qed.

End Obstacles.

End Further.

(** ** On the sample fields *)

Lemma reconstruct_endless_witness :
  reconstruct 10 (<[(0, 0) := (1, 0)]> {[(1, 0) := (0, 0)]} : gmap Key Key)
    (0, 0) = None.
Proof.
  apply (reconstruct_endless _ {[(0, 0); (1, 0)]}).
  - intros n [->%elem_of_singleton| ->%elem_of_singleton]%elem_of_union.
    + exists (1, 0). split; [by vm_compute|set_solver].
    + exists (0, 0). split; [by vm_compute|set_solver].
  - set_solver.
Defined.

Lemma Navigate_to_itself_witness :
  Navigate patch inOrder (0, 0) (0, 0) [wall 0 0] 1 = Some (inl [(0, 0)]).
Proof.
  apply (Navigate_to_itself patch inOrder inOrder_perm (0, 0) [wall 0 0] 0).
Defined.

Lemma Navigate_returns_route_witness :
  route patch (0, 0) (1, 1) [(0, 0); (1, 0); (1, 1)]
  ∧ NoDup [(0, 0); (1, 0); (1, 1)].
Proof.
  apply (Navigate_returns_route patch inOrder inOrder_perm (0, 0) (1, 1)
           [wall 0 1] 5).
  by vm_compute.
Defined.

Lemma Navigate_avoids_walls_witness :
  walled patch [wall 0 1] (1, 0) = false.
Proof.
  apply (Navigate_avoids_walls patch inOrder inOrder_perm (0, 0) (1, 1)
           [wall 0 1] 5 [(0, 0); (1, 0); (1, 1)] (1, 0)).
  - by vm_compute.
  - apply (bool_decide_unpack _). by vm_compute.
  - by intros [=].
Defined.

Lemma Navigate_goal_outside_witness :
  Navigate islands inOrder (0, 0) (5, 5) [] 3
  = Some (inr (noPath islands (0, 0) (5, 5))).
Proof.
  apply (Navigate_goal_outside islands inOrder inOrder_perm (0, 0) (5, 5) []
           (list_to_set [(0, 0); (1, 0)]) 3).
  - apply hexField_canonical.
  - by vm_compute.
  - intros c n Hc Hn. apply elem_of_list_to_set in Hc.
    repeat (apply elem_of_cons in Hc as [->|Hc];
            [vm_compute in Hn;
             repeat (apply elem_of_cons in Hn as [->|Hn]; [by vm_compute|]);
             by apply elem_of_nil in Hn|]).
    by apply elem_of_nil in Hc.
  - by vm_compute.
  - vm_compute. lia.
Defined.

Lemma Navigate_walled_in_witness :
  Navigate patch inOrder (0, 0) (1, 1) [wall 1 0; wall 0 1] 2
  = Some (inr (noPath patch (0, 0) (1, 1))).
Proof.
  apply (Navigate_walled_in patch inOrder inOrder_perm (0, 0) (1, 1)
           [wall 1 0; wall 0 1] 0).
  - by intros [=].
  - intros n Hn. vm_compute in Hn.
    repeat (apply elem_of_cons in Hn as [->|Hn]; [by vm_compute|]).
    by apply elem_of_nil in Hn.
Defined.


Lemma obstacle_order_irrelevant_witness :
  Navigate patch inOrder (0, 0) (1, 1) [wall 0 1; slow 1 0] 5
  = Navigate patch inOrder (0, 0) (1, 1) [slow 1 0; wall 0 1] 5.
Proof.
  apply (obstacle_order_irrelevant patch inOrder (0, 0) (1, 1)
           [wall 0 1; slow 1 0] [slow 1 0; wall 0 1] 5).
  - apply perm_swap.
  - apply (bool_decide_unpack _). by vm_compute.
Defined.

Lemma unit_obstacles_ignored_witness :
  Navigate patch inOrder (0, 0) (1, 1) [plain 1 0; plain 0 1] 5
  = Navigate patch inOrder (0, 0) (1, 1) [] 5.
Proof.
  apply (unit_obstacles_ignored patch inOrder (0, 0) (1, 1)
           [plain 1 0; plain 0 1] 5).
  repeat constructor.
Defined.

Lemma settled_frozen_witness :
  key patch (0, 0)
    ∈ closed (expand patch (1, 1) [] (1, 0) (patchExpanded []))
  ∧ costs (expand patch (1, 1) [] (1, 0) (patchExpanded [])) !! (0, 0)
    = costs (patchExpanded []) !! (0, 0)
  ∧ guesses (expand patch (1, 1) [] (1, 0) (patchExpanded [])) !! (0, 0)
    = guesses (patchExpanded []) !! (0, 0)
  ∧ cameFrom (expand patch (1, 1) [] (1, 0) (patchExpanded [])) !! (0, 0)
    = cameFrom (patchExpanded []) !! (0, 0).
Proof.
  apply (settled_frozen patch inOrder (0, 0) (1, 1) [] 1 1); by vm_compute.
Defined.

Lemma priority_is_cost_plus_heuristic_witness :
  (∀ n, guesses (patchExpanded []) !! n
        = (λ c, PrimFloat.add c (heuristic patch n (1, 1)))
          <$> costs (patchExpanded []) !! n)
  ∧ ∀ n, n ∈ open (patchExpanded []) →
      is_Some (costs (patchExpanded []) !! n)
      ∧ is_Some (guesses (patchExpanded []) !! n).
Proof.
  apply (priority_is_cost_plus_heuristic patch inOrder (0, 0) (1, 1) [] 1).
  by vm_compute.
Defined.

Lemma predecessors_lead_to_start_witness :
  cameFrom (patchExpanded []) !! (0, 0) = None
  ∧ ∀ n, is_Some (cameFrom (patchExpanded []) !! n) →
      ∃ l, follows (cameFrom (patchExpanded [])) n l ∧ NoDup (n :: l)
           ∧ route patch (0, 0) n (reverse (n :: l)).
Proof.
  apply (predecessors_lead_to_start patch inOrder inOrder_perm (0, 0) (1, 1)
           [] 1).
  by vm_compute.
Defined.

(** C8, as stated, fails.  On [twinRow], from (0,0) to (2,0) with the hex
    (2,0) twice as slow, the third turn of the loop expands the second
    reference at (1,0): it leaves the frontier, and the settled set, which
    has its coordinates already, does not grow.  After four turns the loop
    is still running, on a field of three coordinate pairs. *)
Lemma settled_set_stalls :
  closed <$> turns twinRow inOrder (false, (0, 0)) (false, (2, 0))
               [slow 2 0] 2
  = Some (list_to_set [(0, 0); (1, 0)])
  ∧ closed <$> turns twinRow inOrder (false, (0, 0)) (false, (2, 0))
                 [slow 2 0] 3
    = Some (list_to_set [(0, 0); (1, 0)])
  ∧ open <$> turns twinRow inOrder (false, (0, 0)) (false, (2, 0))
               [slow 2 0] 4
    = Some {[(false, (2, 0))]}
  ∧ Navigate twinRow inOrder (false, (0, 0)) (false, (2, 0)) [slow 2 0] 9
    = Some (inl [(false, (0, 0)); (true, (1, 0)); (false, (2, 0))]).
Proof. by vm_compute. Qed.

Lemma Navigate_terminates_witness :
  is_Some
    (Navigate twinRow inOrder (false, (0, 0)) (false, (2, 0)) [slow 2 0] 7).
Proof.
  apply (Navigate_terminates twinRow inOrder inOrder_perm
           (false, (0, 0)) (false, (2, 0)) [slow 2 0]
           (list_to_set (n ← [(0, 0); (1, 0); (2, 0)];
                         [(false, n); (true, n)]))).
  - by vm_compute.
  - apply twinField_closedUnder.
  - vm_compute. lia.
Defined.

Lemma impassable_goal_witness :
  Navigate patchLit inOrder (false, (0, 0)) (false, (1, 1))
    [slow 1 0; wall 1 1; plain 1 1] 5
  = Some (inr (noPath patchLit (false, (0, 0)) (false, (1, 1)))).
Proof.
  apply (impassable_goal patchLit inOrder inOrder_perm
           (false, (0, 0)) (false, (1, 1)) [slow 1 0; wall 1 1; plain 1 1]
           (list_to_set (pair false <$> rhombus 2))
           [slow 1 0] [plain 1 1] (wall 1 1)).
  - by vm_compute.
  - apply litField_closedUnder.
  - by intros [=].
  - done.
  - constructor; [by vm_compute|constructor].
  - by vm_compute.
  - by vm_compute.
  - vm_compute. lia.
Defined.
